(** * The mesh informer: sub-path differ, watch runners and watcher registry

    A shallow embedding of [pkg/object/meshcontroller/informer/informer.go].

    - Go strings and byte slices are [string]s (a [string(bytes)] conversion
      keeps the byte sequence);
    - the [watchers] table and the prefix snapshot are [gmap]s keyed by
      strings;
    - the methods of [meshInformer] run under its mutex, so each of them is
      one atomic transition on the informer state;
    - a goroutine reading a channel is a function over the list of elements
      the channel delivers before it is closed; a runner holds the mutex only
      inside each [stopWatchOneKey], so what is concluded about the informer
      is concluded for one turn of a runner, or for runs in which the runner
      makes no cancellation;
    - a callback is a Go closure; it carries a private state of type [CB]. *)

From Stdlib Require Import ZArith.
From stdpp Require Import gmap strings list fin_maps.

Local Open Scope string_scope.

(** ** Records of the store *)

(** [mvccpb.KeyValue], the fields the informer reads. *)
Record KeyValue := mkKeyValue {
  Key : string;
  Value : string;
  ModRevision : Z;
  Version : Z;
}.

(** Modelled from the spec: the element type [clientv3.Event] of the raw
    watch channels is declared outside this package.  A non-nil element is a
    value change carrying the new record; a deletion marker is the nil
    pointer, [None] below. *)
Record clientv3_Event := mkRawEvent { Kv : KeyValue }.

(** ** Inform events and paths *)

Definition EventUpdate : string := "Update".
Definition EventDelete : string := "Delete".

Record Event := mkEvent {
  EventType : string;
  RawKV : option KeyValue;
}.

Definition GJSONPath := string.

Definition AllParts : GJSONPath := "".
Definition ServiceObservability : GJSONPath := "observability".
Definition ServiceResilience : GJSONPath := "resilience".
Definition ServiceCanary : GJSONPath := "canary".
Definition ServiceLoadBalance : GJSONPath := "loadBalance".
Definition ServiceCircuitBreaker : GJSONPath := "resilience.circuitBreaker".

(** ** Errors *)

Inductive error :=
  | ErrAlreadyWatched
  | ErrClosed
  | ErrNotFound
  | ErrStorage (msg : string).

(** ** The libraries behind the differ

    [yamljsontool.YAMLToJSON] and [gjson.Get] are third-party functions; the
    differ is verified against any behaviour of theirs.  What is fixed is the
    shape of [gjson.Result], because [comparePart] compares two of them with
    Go's [==], which on a struct compares every field: the JSON type, the raw
    text, the string, the number, and [Index], the byte offset of the raw
    text inside the JSON document that was searched. *)

Module gjson.

Inductive Type_ := TNull | TFalse | TNumber | TString | TTrue | TJSON.

Definition Type_eqb (a b : Type_) : bool :=
    match a, b with
    | TNull, TNull | TFalse, TFalse | TNumber, TNumber
    | TString, TString | TTrue, TTrue | TJSON, TJSON => true
    | _, _ => false
    end.

Record Result (F : Type) := mkResult {
    Type' : Type_;
    Raw : string;
    Str : string;
    Num : F;
    Index : Z;
  }.
Arguments mkResult {F} _ _ _ _ _.
Arguments Type' {F} _.
Arguments Raw {F} _.
Arguments Str {F} _.
Arguments Num {F} _.
Arguments Index {F} _.

End gjson.

Class Libraries := {
  (** Go's [float64] and its [==] (which is not reflexive at NaN). *)
  float64 : Type;
  float64_eqb : float64 → float64 → bool;
  (** [YAMLToJSON]: [None] when the conversion returns an error. *)
  YAMLToJSON : string → option string;
  (** [gjson.Get json path]. *)
  gjson_Get : string → string → gjson.Result float64;
}.

Section Differ.
Context `{Libraries}.

  (** Go's [==] on two [gjson.Result] structs. *)
Definition Result_eqb (a b : gjson.Result float64) : bool :=
    gjson.Type_eqb (gjson.Type' a) (gjson.Type' b)
    && String.eqb (gjson.Raw a) (gjson.Raw b)
    && String.eqb (gjson.Str a) (gjson.Str b)
    && float64_eqb (gjson.Num a) (gjson.Num b)
    && Z.eqb (gjson.Index a) (gjson.Index b).

Definition comparePart (path : GJSONPath) (old new : string) : bool :=
    if String.eqb path AllParts then String.eqb old new
    else
      match YAMLToJSON old with
      | None => true
      | Some oldJSON =>
          match YAMLToJSON new with
          | None => true
          | Some newJSON =>
              Result_eqb (gjson_Get oldJSON path) (gjson_Get newJSON path)
          end
      end.

End Differ.

(** ** The store and the informer

    [storage.Storage] and [storage.Watcher] are interfaces of another
    package.  A watcher handle is identified by the order in which
    [Watcher()] issued it; the store answers each call with a value or an
    error. *)

Definition Watcher := nat.

Record Storage := mkStorage {
  (** [GetRaw(key)]: an error, or the record, nil when the key is absent. *)
  GetRaw : string → error + option KeyValue;
  (** [GetRawPrefix(prefix)]. *)
  GetRawPrefix : string → error + gmap string KeyValue;
  (** [Watcher()]: the error it returns, if any. *)
  NewWatcher : option error;
  (** [watcher.WatchRawFromRev(key, rev)]: the error it returns, if any. *)
  WatchRawFromRev : string → Z → option error;
  (** [watcher.WatchRawPrefixFromRev(prefix, rev)]. *)
  WatchRawPrefixFromRev : string → Z → option error;
}.

Inductive outcome (A : Type) :=
  | Panic
  | Return (a : A).
Arguments Panic {A}.
Arguments Return {A} a.

Section Informer.
Context {CB : Type}.

(** A callback is a closure: from its private state and its arguments it
    gives its next state and the boolean it returns. *)
Definition specHandleFunc := CB → Event → string → CB * bool.
Definition specsHandleFunc := CB → gmap string string → CB * bool.

(** [go inf.watch(ch, watcherKey, gjsonPath, fn)] and
    [go inf.watchPrefix(ch, watcherKey, fn)]; the channel is the one the
    handle [w] opened on the given key or prefix from revision [rev]. *)
Inductive goroutine :=
  | GoWatch (w : Watcher) (storeKey : string) (rev : Z)
      (watcherKey : string) (path : GJSONPath) (fn : specHandleFunc)
  | GoWatchPrefix (w : Watcher) (storePrefix : string) (rev : Z)
      (watcherKey : string) (fn : specsHandleFunc).

(** The fields of [meshInformer] ([store], [watchers], [closed]) and what
    its methods do to the world around it: the handles [Watcher()] issued,
    the handles [Close()] was called on, the goroutines started. *)
Record meshInformer := mkInformer {
  store : Storage;
  watchers : gmap string Watcher;
  closed : bool;
  issued : nat;
  closedWatchers : gset Watcher;
  spawned : list goroutine;
}.

Definition NewInformer (store : Storage) : meshInformer :=
  {| store := store; watchers := ∅; closed := false;
     issued := 0; closedWatchers := ∅; spawned := [] |}.

Definition stopWatchOneKey (key : string) (inf : meshInformer) : meshInformer :=
  match watchers inf !! key with
  | Some watcher =>
      {| store := store inf;
         watchers := delete key (watchers inf);
         closed := closed inf;
         issued := issued inf;
         closedWatchers := {[watcher]} ∪ closedWatchers inf;
         spawned := spawned inf |}
  | None => inf
  end.

Definition onSpecPart (storeKey watcherKey : string) (gjsonPath : GJSONPath)
    (fn : specHandleFunc) (inf : meshInformer) : option error * meshInformer :=
  if closed inf then (Some ErrClosed, inf)
  else if decide (is_Some (watchers inf !! watcherKey)) then (Some ErrAlreadyWatched, inf)
  else
    match GetRaw (store inf) storeKey with
    | inl err => (Some err, inf)
    | inr None => (Some ErrNotFound, inf)
    | inr (Some kv) =>
        match NewWatcher (store inf) with
        | Some err => (Some err, inf)
        | None =>
            let watcher := issued inf in
            match WatchRawFromRev (store inf) storeKey (ModRevision kv) with
            | Some err =>
                (Some err,
                 {| store := store inf; watchers := watchers inf;
                    closed := closed inf; issued := S (issued inf);
                    closedWatchers := closedWatchers inf;
                    spawned := spawned inf |})
            | None =>
                (None,
                 {| store := store inf;
                    watchers := <[watcherKey := watcher]> (watchers inf);
                    closed := closed inf; issued := S (issued inf);
                    closedWatchers := closedWatchers inf;
                    spawned := spawned inf ++
                      [GoWatch watcher storeKey (ModRevision kv) watcherKey gjsonPath fn] |})
            end
        end
    end.

(** [int64(^uint64(0) >> 1)]. *)
Definition maxInt64 : Z := 9223372036854775807.

Definition minRevision (kvs : gmap string KeyValue) : Z :=
  map_fold (λ _ v minRev, if (ModRevision v <? minRev)%Z then ModRevision v else minRev)
    maxInt64 kvs.

Definition onSpecs (storePrefix watcherKey : string) (fn : specsHandleFunc)
    (inf : meshInformer) : option error * meshInformer :=
  if closed inf then (Some ErrClosed, inf)
  else if decide (is_Some (watchers inf !! watcherKey)) then (Some ErrAlreadyWatched, inf)
  else
    match GetRawPrefix (store inf) storePrefix with
    | inl err => (Some err, inf)
    | inr kvs =>
        match NewWatcher (store inf) with
        | Some err => (Some err, inf)
        | None =>
            let watcher := issued inf in
            let minRev := minRevision kvs in
            match WatchRawPrefixFromRev (store inf) storePrefix minRev with
            | Some err =>
                (Some err,
                 {| store := store inf; watchers := watchers inf;
                    closed := closed inf; issued := S (issued inf);
                    closedWatchers := closedWatchers inf;
                    spawned := spawned inf |})
            | None =>
                (None,
                 {| store := store inf;
                    watchers := <[watcherKey := watcher]> (watchers inf);
                    closed := closed inf; issued := S (issued inf);
                    closedWatchers := closedWatchers inf;
                    spawned := spawned inf ++
                      [GoWatchPrefix watcher storePrefix minRev watcherKey fn] |})
            end
        end
    end.

(** [Close]: the loop calls [watcher.Close()] on every entry of the table;
    the table itself is not written. *)
Definition Close (inf : meshInformer) : meshInformer :=
  {| store := store inf;
     watchers := watchers inf;
     closed := true;
     issued := issued inf;
     closedWatchers :=
       map_fold (λ _ watcher acc, {[watcher]} ∪ acc) (closedWatchers inf) (watchers inf);
     spawned := spawned inf |}.

End Informer.

(** ** The runners *)

Section Runners.
Context `{Libraries}.
Context {CB : Type}.

(** The local variables of a [watch] goroutine: [oldValue], the state of
    the callback closure and, as a record of what was delivered, the
    arguments of every call of [fn] so far, oldest first. *)
Record watchLocals := mkWatchLocals {
  oldValue : string;
  closure : CB;
  calls : list (Event * string);
}.

(** One call [fn(event, value)] followed by
    [if !continueWatch { inf.stopWatchOneKey(watcherKey) }]. *)
Definition deliver (fn : @specHandleFunc CB) (watcherKey : string)
    (event : Event) (value : string) (oldValue' : string)
    (st : @meshInformer CB * watchLocals) : @meshInformer CB * watchLocals :=
  let r := fn (closure st.2) event value in
  let continueWatch := r.2 in
  (if continueWatch then st.1 else stopWatchOneKey watcherKey st.1,
   {| oldValue := oldValue'; closure := r.1;
      calls := calls st.2 ++ [(event, value)] |}).

(** The body of [for event = range ch]. *)
Definition watch_body (watcherKey : string) (path : GJSONPath) (fn : @specHandleFunc CB)
    (st : @meshInformer CB * watchLocals) (event : option clientv3_Event)
    : @meshInformer CB * watchLocals :=
  match event with
  | None =>
      deliver fn watcherKey (mkEvent EventDelete None) "" (oldValue st.2) st
  | Some event =>
      let newValue := Value (Kv event) in
      if comparePart path (oldValue st.2) newValue
      then (st.1, {| oldValue := newValue; closure := closure st.2; calls := calls st.2 |})
      else deliver fn watcherKey (mkEvent EventUpdate (Some (Kv event))) newValue newValue st
  end.

(** [watch].  [ch] lists what the channel delivers until it is closed.  The
    first receive [event := <-ch] yields nil on a closed channel, and
    [event.Kv] on a nil [event] is a nil pointer dereference.  The informer
    is passed from turn to turn as in a run during which nothing else is
    called on it; in general each cancellation acts on the informer as it
    is when the runner takes the mutex. *)
Definition watch (ch : list (option clientv3_Event)) (watcherKey : string)
    (path : GJSONPath) (fn : @specHandleFunc CB) (c : CB) (inf : @meshInformer CB)
    : outcome (@meshInformer CB * watchLocals) :=
  match ch with
  | [] => Panic
  | None :: _ => Panic
  | Some event :: ch' =>
      let oldValue := Value (Kv event) in
      let st :=
        deliver fn watcherKey (mkEvent EventUpdate (Some (Kv event))) oldValue oldValue
          (inf, {| oldValue := oldValue; closure := c; calls := [] |}) in
      Return (foldl (watch_body watcherKey path fn) st ch')
  end.

(** The local variables of a [watchPrefix] goroutine: the snapshot [kvs],
    the closure state and the snapshots [fn] was called with.  The typed
    callbacks read the map during the call and keep no reference to it, so a
    call is recorded with the content of the map at that time. *)
Record prefixLocals := mkPrefixLocals {
  kvs : gmap string string;
  pclosure : CB;
  pcalls : list (gmap string string);
}.

(** [for k, v := range m]: the body is run on the entries of the map. *)
Definition range {A B} (body : B → string * A → B) (b : B) (m : gmap string A) : B :=
  foldl body b (map_to_list m).

(** Body of the first loop: [if v != nil { kvs[k] = string(v.Kv.Value) }]. *)
Definition seed_entry (kvs : gmap string string) (kv : string * option clientv3_Event)
    : gmap string string :=
  match kv.2 with
  | Some v => <[kv.1 := Value (Kv v)]> kvs
  | None => kvs
  end.

(** Body of the inner loop of the second loop, on [kvs] and [changed]. *)
Definition update_entry (acc : gmap string string * bool)
    (kv : string * option clientv3_Event) : gmap string string * bool :=
  match kv.2 with
  | None => (delete kv.1 acc.1, true)
  | Some v =>
      match acc.1 !! kv.1 with
      | Some oldValue =>
          if String.eqb oldValue (Value (Kv v)) then acc
          else (<[kv.1 := Value (Kv v)]> acc.1, true)
      | None => (<[kv.1 := Value (Kv v)]> acc.1, true)
      end
  end.

(** One call [fn(kvs)] followed by the stop when it returns false. *)
Definition deliverPrefix (fn : @specsHandleFunc CB) (watcherKey : string)
    (kvs' : gmap string string)
    (st : @meshInformer CB * prefixLocals) : @meshInformer CB * prefixLocals :=
  let r := fn (pclosure st.2) kvs' in
  let continueWatch := r.2 in
  (if continueWatch then st.1 else stopWatchOneKey watcherKey st.1,
   {| kvs := kvs'; pclosure := r.1; pcalls := pcalls st.2 ++ [kvs'] |}).

(** The body of [for changedKVs = range ch]. *)
Definition watchPrefix_body (watcherKey : string) (fn : @specsHandleFunc CB)
    (st : @meshInformer CB * prefixLocals)
    (changedKVs : gmap string (option clientv3_Event))
    : @meshInformer CB * prefixLocals :=
  let r := range update_entry (kvs st.2, false) changedKVs in
  let kvs' := r.1 in
  let changed := r.2 in
  if changed then deliverPrefix fn watcherKey kvs' st
  else (st.1, {| kvs := kvs'; pclosure := pclosure st.2; pcalls := pcalls st.2 |}).

(** [watchPrefix].  A receive on a closed channel yields the nil map, over
    which the first loop does not iterate.  The informer is passed from
    turn to turn as for [watch]. *)
Definition watchPrefix (ch : list (gmap string (option clientv3_Event)))
    (watcherKey : string) (fn : @specsHandleFunc CB) (c : CB) (inf : @meshInformer CB)
    : @meshInformer CB * prefixLocals :=
  let changedKVs := match ch with [] => ∅ | m :: _ => m end in
  let kvs := range seed_entry ∅ changedKVs in
  let st := deliverPrefix fn watcherKey kvs
              (inf, {| kvs := kvs; pclosure := c; pcalls := [] |}) in
  foldl (watchPrefix_body watcherKey fn) st (tail ch).

End Runners.

(** ** The typed bindings

    The key derivations of package [layout], the document types of package
    [spec] and their YAML decoding are taken as given. *)

Class Layout := {
  ServiceSpecKey : string → string;
  ServiceInstanceSpecKey : string → string → string;
  ServiceInstanceStatusKey : string → string → string;
  TenantSpecKey : string → string;
  IngressSpecKey : string → string;
  ServiceInstanceSpecPrefix : string → string;
  ServiceInstanceStatusPrefix : string → string;
  IngressPrefix : string;
}.

(** A document type of package [spec]: its zero value and
    [yaml.Unmarshal] into it, [None] when that returns an error. *)
Record Document := mkDocument {
  doc :> Type;
  zero : doc;
  Unmarshal : string → option doc;
}.

Class Specs := {
  Service : Document;
  ServiceInstanceSpec : Document;
  ServiceInstanceStatus : Document;
  Tenant : Document;
  Ingress : Document;
}.

Section Bindings.
Context `{Layout} `{Specs}.
Context {CB : Type}.

(** The closure [specFunc] every [OnPartOf...] method builds around its
    typed callback. *)
Definition specFunc (T : Document) (fn : CB → Event → T → CB * bool)
    : @specHandleFunc CB :=
  λ c event value,
    if negb (String.eqb (EventType event) EventDelete) then
      match Unmarshal T value with
      | None => (c, true)
      | Some typed => fn c event typed
      end
    else fn c event (zero T).

(** The closure [specsFunc] every [On...s] method builds: records that do
    not decode are skipped. *)
Definition specsFunc (T : Document) (fn : CB → gmap string T → CB * bool)
    : @specsHandleFunc CB :=
  λ c kvs, fn c (omap (Unmarshal T) kvs).

Definition serviceSpecWatcherKey (serviceName : string) (gjsonPath : GJSONPath) : string :=
  "service-spec-" ++ serviceName ++ "-" ++ gjsonPath.

Definition OnPartOfServiceSpec (serviceName : string) (gjsonPath : GJSONPath)
    (fn : CB → Event → Service → CB * bool) :=
  let storeKey := ServiceSpecKey serviceName in
  let watcherKey := serviceSpecWatcherKey serviceName gjsonPath in
  onSpecPart storeKey watcherKey gjsonPath (specFunc Service fn).

Definition StopWatchServiceSpec (serviceName : string) (gjsonPath : GJSONPath)
    : @meshInformer CB → @meshInformer CB :=
  let watcherKey := serviceSpecWatcherKey serviceName gjsonPath in
  stopWatchOneKey watcherKey.

Definition OnPartOfInstanceSpec (serviceName instanceID : string) (gjsonPath : GJSONPath)
    (fn : CB → Event → ServiceInstanceSpec → CB * bool) :=
  let storeKey := ServiceInstanceSpecKey serviceName instanceID in
  let watcherKey :=
    "service-instance-spec-" ++ serviceName ++ "-" ++ instanceID ++ "-" ++ gjsonPath in
  onSpecPart storeKey watcherKey gjsonPath (specFunc ServiceInstanceSpec fn).

Definition OnPartOfServiceInstanceStatus (serviceName instanceID : string)
    (gjsonPath : GJSONPath) (fn : CB → Event → ServiceInstanceStatus → CB * bool) :=
  let storeKey := ServiceInstanceStatusKey serviceName instanceID in
  let watcherKey :=
    "service-instance-status-" ++ serviceName ++ "-" ++ instanceID ++ "-" ++ gjsonPath in
  onSpecPart storeKey watcherKey gjsonPath (specFunc ServiceInstanceStatus fn).

Definition OnPartOfTenantSpec (tenant : string) (gjsonPath : GJSONPath)
    (fn : CB → Event → Tenant → CB * bool) :=
  let storeKey := TenantSpecKey tenant in
  let watcherKey := "tenant-" ++ tenant in
  onSpecPart storeKey watcherKey gjsonPath (specFunc Tenant fn).

Definition OnPartOfIngressSpec (ingress : string) (gjsonPath : GJSONPath)
    (fn : CB → Event → Ingress → CB * bool) :=
  let storeKey := IngressSpecKey ingress in
  let watcherKey := "ingress-" ++ ingress in
  onSpecPart storeKey watcherKey gjsonPath (specFunc Ingress fn).

Definition OnServiceSpecs (servicePrefix : string)
    (fn : CB → gmap string Service → CB * bool) :=
  let watcherKey := "prefix-service-" ++ servicePrefix in
  onSpecs servicePrefix watcherKey (specsFunc Service fn).

Definition serviceInstanceSpecWatcherKey (serviceName : string) : string :=
  "prefix-service-instance-spec-" ++ serviceName.

Definition OnServiceInstanceSpecs (serviceName : string)
    (fn : CB → gmap string ServiceInstanceSpec → CB * bool) :=
  let instancePrefix := ServiceInstanceSpecPrefix serviceName in
  let watcherKey := serviceInstanceSpecWatcherKey serviceName in
  onSpecs instancePrefix watcherKey (specsFunc ServiceInstanceSpec fn).

Definition StopWatchServiceInstanceSpec (serviceName : string)
    : @meshInformer CB → @meshInformer CB :=
  let watcherKey := serviceInstanceSpecWatcherKey serviceName in
  stopWatchOneKey watcherKey.

Definition OnServiceInstanceStatuses (serviceName : string)
    (fn : CB → gmap string ServiceInstanceStatus → CB * bool) :=
  let watcherKey := "prefix-service-instance-status-" ++ serviceName in
  let instanceStatusPrefix := ServiceInstanceStatusPrefix serviceName in
  onSpecs instanceStatusPrefix watcherKey (specsFunc ServiceInstanceStatus fn).

Definition OnTenantSpecs (tenantPrefix : string)
    (fn : CB → gmap string Tenant → CB * bool) :=
  let watcherKey := "prefix-tenant-" ++ tenantPrefix in
  onSpecs tenantPrefix watcherKey (specsFunc Tenant fn).

Definition OnIngressSpecs (fn : CB → gmap string Ingress → CB * bool) :=
  let storeKey := IngressPrefix in
  let watcherKey := "prefix-ingress" in
  onSpecs storeKey watcherKey (specsFunc Ingress fn).

End Bindings.

(** ** Histories of the informer

    Whatever happens to an informer is a sequence of calls of its methods
    (by its users, or by a runner whose callback returned false) and of
    changes of what the store answers. *)

Section Histories.
Context {CB : Type}.

Definition withStore (st : Storage) (inf : @meshInformer CB) : @meshInformer CB :=
  {| store := st; watchers := watchers inf; closed := closed inf;
     issued := issued inf; closedWatchers := closedWatchers inf;
     spawned := spawned inf |}.

Inductive call :=
  | CallOnSpecPart (storeKey watcherKey : string) (gjsonPath : GJSONPath)
      (fn : @specHandleFunc CB)
  | CallOnSpecs (storePrefix watcherKey : string) (fn : @specsHandleFunc CB)
  | CallStopWatchOneKey (key : string)
  | CallClose
  | StoreChanges (st : Storage).

Definition step (inf : @meshInformer CB) (c : call) : @meshInformer CB :=
  match c with
  | CallOnSpecPart storeKey watcherKey gjsonPath fn =>
      (onSpecPart storeKey watcherKey gjsonPath fn inf).2
  | CallOnSpecs storePrefix watcherKey fn =>
      (onSpecs storePrefix watcherKey fn inf).2
  | CallStopWatchOneKey key => stopWatchOneKey key inf
  | CallClose => Close inf
  | StoreChanges st => withStore st inf
  end.

Definition run (inf : @meshInformer CB) (history : list call) : @meshInformer CB :=
  foldl step inf history.

End Histories.

(** ** What a single-key subscription delivers, given the differ

    A description of the deliveries over the stream of raw events as a
    whole.  It is relative to the differ: an event counts as a change when
    [comparePart] tells its raw value from the most recent raw value, which
    is kept across deletions.  Whether the differ itself is right about the
    watched part is a separate matter. *)

Section Expected.
Context `{Libraries}.

(** The raw values of the value events of a stream, in order. *)
Definition raw_values (evs : list (option clientv3_Event)) : list string :=
  omap (fmap (Value ∘ Kv)) evs.

(** The most recent raw value once [evs] has been received after a first
    value [v0]. *)
Definition last_raw (v0 : string) (evs : list (option clientv3_Event)) : string :=
  default v0 (last (raw_values evs)).

(** The most recent raw value after one more event. *)
Definition next_raw (v0 : string) (event : option clientv3_Event) : string :=
  match event with
  | Some event => Value (Kv event)
  | None => v0
  end.

Definition inform_delete : Event * string := (mkEvent EventDelete None, "").

Definition inform_update (event : clientv3_Event) : Event * string :=
  (mkEvent EventUpdate (Some (Kv event)), Value (Kv event)).


(** What is delivered for one event, [last] being the most recent raw value
    before it: a deletion always, a value when the differ tells it from
    [last]. *)
Definition expected_for (path : GJSONPath) (last : string)
    (event : option clientv3_Event) : list (Event * string) :=
  match event with
  | None => [inform_delete]
  | Some event =>
      if comparePart path last (Value (Kv event)) then [] else [inform_update event]
  end.

(** What is delivered for the events [evs] that follow a first value [v0]. *)
Definition expected_deliveries (path : GJSONPath) (v0 : string)
    (evs : list (option clientv3_Event)) : list (Event * string) :=
  concat (imap (λ i event, expected_for path (last_raw v0 (take i evs)) event) evs).

Definition is_delete (d : Event * string) : bool :=
  String.eqb (EventType d.1) EventDelete.

End Expected.

(** ** What a batch is expected to do to a prefix snapshot *)

(** An entry of a batch changes the snapshot [kvs]: a deletion marker does,
    a value does when [kvs] has no such key or another value for it. *)
Definition entry_changes (kvs : gmap string string) (k : string)
    (v : option clientv3_Event) : Prop :=
  match v with
  | None => True
  | Some v => kvs !! k ≠ Some (Value (Kv v))
  end.

Definition batch_changes (kvs : gmap string string)
    (batch : gmap string (option clientv3_Event)) : Prop :=
  ∃ k v, batch !! k = Some v ∧ entry_changes kvs k v.

(** The entry of key [k] after a batch. *)
Definition entry_after (kvs : gmap string string)
    (batch : gmap string (option clientv3_Event)) (k : string) : option string :=
  match batch !! k with
  | Some None => None
  | Some (Some v) => Some (Value (Kv v))
  | None => kvs !! k
  end.

(** ** Sample collaborators

    Concrete stores, libraries and layouts on which the informer is run. *)

Module Sample.

(** A healthy store holding the records [m]. *)
Definition storeOf (m : gmap string KeyValue) : Storage :=
  {| GetRaw := λ key, inr (m !! key);
     GetRawPrefix := λ prefix, inr (filter (λ kv, String.prefix prefix kv.1 = true) m);
     NewWatcher := None;
     WatchRawFromRev := λ _ _, None;
     WatchRawPrefixFromRev := λ _ _, None |}.

Definition layout : Layout :=
  {| ServiceSpecKey := λ s, "/mesh/service-spec/" ++ s;
     ServiceInstanceSpecKey := λ s i, "/mesh/service-instances/spec/" ++ s ++ "/" ++ i;
     ServiceInstanceStatusKey := λ s i, "/mesh/service-instances/status/" ++ s ++ "/" ++ i;
     TenantSpecKey := λ t, "/mesh/tenants/spec/" ++ t;
     IngressSpecKey := λ i, "/mesh/ingress/" ++ i;
     ServiceInstanceSpecPrefix := λ s, "/mesh/service-instances/spec/" ++ s ++ "/";
     ServiceInstanceStatusPrefix := λ s, "/mesh/service-instances/status/" ++ s ++ "/";
     IngressPrefix := "/mesh/ingress/" |}.

(** Documents kept as their text; every text decodes. *)
Definition text : Document := {| doc := string; zero := ""; Unmarshal := Some |}.

Definition specs : Specs :=
  {| Service := text; ServiceInstanceSpec := text; ServiceInstanceStatus := text;
     Tenant := text; Ingress := text |}.

Definition record (key value : string) (rev : Z) : KeyValue :=
  {| Key := key; Value := value; ModRevision := rev; Version := 1 |}.

(** A store with one service, one tenant and one ingress. *)
Definition store : Storage :=
  storeOf (list_to_map
    [("/mesh/service-spec/s", record "/mesh/service-spec/s" "{a: 1, b: 2}" 5);
     ("/mesh/tenants/spec/t", record "/mesh/tenants/spec/t" "{a: 1, b: 2}" 6);
     ("/mesh/ingress/i", record "/mesh/ingress/i" "{a: 1, b: 2}" 7)]).

(** A callback without state that asks to go on. *)
Definition keep {A} : unit → Event → A → unit * bool := λ _ _ _, (tt, true).


(** The double quote character. *)
Definition dq : string := String (Ascii.ascii_of_nat 34) EmptyString.

(** Two YAML documents that differ in [a] and agree on [b], and a text that
    is not YAML. *)
Definition doc1 : string := "{a: 1, b: 2}".
Definition doc2 : string := "{a: 11, b: 2}".
Definition broken : string := "a: [".

(** Their JSON forms: an object with the keys [a] and [b], with the values
    1 and 2, respectively 11 and 2. *)
Definition json1 : string := "{" ++ dq ++ "a" ++ dq ++ ":1," ++ dq ++ "b" ++ dq ++ ":2}".
Definition json2 : string := "{" ++ dq ++ "a" ++ dq ++ ":11," ++ dq ++ "b" ++ dq ++ ":2}".

(** The two libraries on these documents: the conversion gives the JSON
    forms above and rejects the broken text; [gjson.Get] at path [b] gives
    the number 2 with the offset of its text in the JSON searched, 11 in
    the first and 12 in the second, and at path [a] the numbers 1 and 11,
    both at offset 5.  Numbers are integers here.  Anything else is
    answered by an error, respectively the zero result. *)
Definition libraries : Libraries :=
  {| float64 := Z;
     float64_eqb := Z.eqb;
     YAMLToJSON := λ d,
       if String.eqb d doc1 then Some json1
       else if String.eqb d doc2 then Some json2
       else None;
     gjson_Get := λ json path,
       if String.eqb path "b" && String.eqb json json1
       then gjson.mkResult gjson.TNumber "2" "" 2%Z 11%Z
       else if String.eqb path "b" && String.eqb json json2
       then gjson.mkResult gjson.TNumber "2" "" 2%Z 12%Z
       else if String.eqb path "a" && String.eqb json json1
       then gjson.mkResult gjson.TNumber "1" "" 1%Z 5%Z
       else if String.eqb path "a" && String.eqb json json2
       then gjson.mkResult gjson.TNumber "11" "" 11%Z 5%Z
       else gjson.mkResult gjson.TNull "" "" 0%Z 0%Z |}.

(** The value events and batches of the examples. *)
Definition value_event (key value : string) (rev : Z) : option clientv3_Event :=
  Some (mkRawEvent (record key value rev)).

Definition batch3 : gmap string (option clientv3_Event) :=
  {[ "b" := None ]}.

End Sample.

(** ** Further notions used to describe the informer *)

(** A list of raw values without its repetitions of the value just before,
    [last] being the value before the first. *)
Fixpoint compress_from (last : string) (values : list string) : list string :=
  match values with
  | [] => []
  | v :: values =>
      if decide (last = v) then compress_from v values
      else v :: compress_from v values
  end.

(** The state of the closure of a callback after it was applied, in
    order, to the given arguments. *)
Definition replay {CB : Type} (fn : @specHandleFunc CB) (c : CB)
    (deliveries : list (Event * string)) : CB :=
  foldl (λ c d, (fn c d.1 d.2).1) c deliveries.

Definition replayPrefix {CB : Type} (fn : @specsHandleFunc CB) (c : CB)
    (snapshots : list (gmap string string)) : CB :=
  foldl (λ c kvs, (fn c kvs).1) c snapshots.

(** The values of the Updates among deliveries. *)
Definition update_values (deliveries : list (Event * string)) : list string :=
  (filter (λ d, is_delete d = false) deliveries).*2.

(** The first snapshot of a prefix runner: the values of the entries of the
    first batch that are not deletion markers. *)
Definition seed_of (batch : gmap string (option clientv3_Event)) : gmap string string :=
  omap (fmap (Value ∘ Kv)) batch.

Section Consistency.
Context {CB : Type}.

(** What holds of the handles of an informer: the handles in the table and
    the closed ones were issued, no two watch keys share a handle, and as
    long as the informer is open no handle in the table is closed. *)
Definition consistent (inf : @meshInformer CB) : Prop :=
  (∀ k w, watchers inf !! k = Some w → w < issued inf)
  ∧ (∀ w, w ∈ closedWatchers inf → w < issued inf)
  ∧ (∀ k1 k2 w, watchers inf !! k1 = Some w → watchers inf !! k2 = Some w → k1 = k2)
  ∧ (closed inf = false →
     ∀ k w, watchers inf !! k = Some w → w ∉ closedWatchers inf).

(** The informer after [Watcher()] issued one more handle. *)
Definition issue (inf : @meshInformer CB) : @meshInformer CB :=
  {| store := store inf; watchers := watchers inf; closed := closed inf;
     issued := S (issued inf); closedWatchers := closedWatchers inf;
     spawned := spawned inf |}.

(** The informer after that handle was recorded under [watcherKey] and the
    runner [g] started. *)
Definition register (watcherKey : string) (g : @goroutine CB)
    (inf : @meshInformer CB) : @meshInformer CB :=
  {| store := store inf;
     watchers := <[watcherKey := issued inf]> (watchers inf);
     closed := closed inf; issued := S (issued inf);
     closedWatchers := closedWatchers inf;
     spawned := spawned inf ++ [g] |}.

(** A handle that was issued, is not in the table and is not closed. *)
Definition forgotten (h : Watcher) (inf : @meshInformer CB) : Prop :=
  h < issued inf
  ∧ (∀ k, watchers inf !! k ≠ Some h)
  ∧ h ∉ closedWatchers inf.

End Consistency.

(** A name without the character [-] (code 45). *)
Fixpoint dashless (s : string) : bool :=
  match s with
  | EmptyString => true
  | String a s => negb (Ascii.eqb a (Ascii.ascii_of_nat 45)) && dashless s
  end.

(** * The differ *)

Section DifferFacts.
Context `{Libraries}.

Lemma String_eqb_decide (a b : string) : String.eqb a b = bool_decide (a = b).
Proof.
  destruct (String.eqb_spec a b) as [Heq|Hne].
  - by rewrite bool_decide_eq_true_2.
  - by rewrite bool_decide_eq_false_2.
Qed.

(** On a path that is not the empty one the differ goes through the two
    conversions. *)
Lemma comparePart_part (path : GJSONPath) (old new : string) :
  path ≠ AllParts →
  comparePart path old new =
    match YAMLToJSON old, YAMLToJSON new with
    | Some oldJSON, Some newJSON =>
        Result_eqb (gjson_Get oldJSON path) (gjson_Get newJSON path)
    | _, _ => true
    end.
Proof.
  intros Hpath. unfold comparePart.
  destruct (String.eqb_spec path AllParts) as [|_]; [done|].
  by destruct (YAMLToJSON old), (YAMLToJSON new).
Qed.

(** Two results at different offsets are not [==]. *)
Lemma Result_eqb_Index (a b : gjson.Result float64) :
  gjson.Index a ≠ gjson.Index b → Result_eqb a b = false.
Proof.
  intros Hne. unfold Result_eqb.
  apply andb_false_intro2. by apply Z.eqb_neq.
Qed.

(** At the empty path the differ compares the raw documents. *)
Lemma comparePart_whole (old new : string) :
  comparePart AllParts old new = bool_decide (old = new).
Proof. unfold comparePart. simpl. apply String_eqb_decide. Qed.

(** C7: at the empty path expression the differ is the bytewise equality of
    the two raw documents, whatever the documents are and whatever the
    conversion would say of them. *)
Theorem comparePart_AllParts (d1 d2 : string) :
  comparePart "" d1 d2 = bool_decide (d1 = d2).
Proof. apply comparePart_whole. Qed.

(** C5, as amended: when one of the two documents does not convert, the
    differ answers "equal" at every path but the empty one, where it
    answers the bytewise equality of the documents. *)
Theorem comparePart_malformed (p : GJSONPath) (d1 d2 : string) :
  YAMLToJSON d1 = None ∨ YAMLToJSON d2 = None →
  comparePart p d1 d2 = if decide (p = "") then bool_decide (d1 = d2) else true.
Proof.
  intros Hbad. destruct (decide (p = "")) as [->|Hp].
  - apply comparePart_whole.
  - rewrite comparePart_part by done.
    destruct Hbad as [-> | ->]; [done|]. by destruct (YAMLToJSON d1).
Qed.

(** C4: the differ tells two documents apart as soon as the value at the
    path lies at another offset in their JSON forms, also when the value
    itself is the same. *)
Theorem comparePart_offset (p : GJSONPath) (d1 d2 j1 j2 : string) :
  p ≠ "" →
  YAMLToJSON d1 = Some j1 →
  YAMLToJSON d2 = Some j2 →
  gjson.Index (gjson_Get j1 p) ≠ gjson.Index (gjson_Get j2 p) →
  comparePart p d1 d2 = false.
Proof.
  intros Hp Hj1 Hj2 Hindex.
  rewrite comparePart_part by done. rewrite Hj1, Hj2.
  by apply Result_eqb_Index.
Qed.

End DifferFacts.

(** The broken document of the samples, at the empty path: it does not
    convert, and the differ answers "not equal". *)
Lemma comparePart_malformed_AllParts :
  @YAMLToJSON Sample.libraries Sample.broken = None
  ∧ @comparePart Sample.libraries "" Sample.broken Sample.doc1 = false.
Proof. split; reflexivity. Qed.

Lemma comparePart_malformed_witness :
  @YAMLToJSON Sample.libraries Sample.broken = None
  ∧ @comparePart Sample.libraries "b" Sample.broken Sample.doc1 = true.
Proof.
  split; [reflexivity|].
  apply (@comparePart_malformed Sample.libraries "b" Sample.broken Sample.doc1).
  left. reflexivity.
Defined.

(** The two sample documents differ in [a] only; at path [b] both hold the
    number 2, and the differ answers "not equal". *)
Lemma comparePart_offset_witness :
  (let r1 := @gjson_Get Sample.libraries Sample.json1 "b" in
   let r2 := @gjson_Get Sample.libraries Sample.json2 "b" in
   gjson.Type' r1 = gjson.Type' r2 ∧ gjson.Raw r1 = gjson.Raw r2
   ∧ gjson.Str r1 = gjson.Str r2 ∧ gjson.Num r1 = gjson.Num r2)
  ∧ @comparePart Sample.libraries "b" Sample.doc1 Sample.doc2 = false.
Proof.
  split; [by repeat split|].
  apply (@comparePart_offset Sample.libraries "b" Sample.doc1 Sample.doc2
           Sample.json1 Sample.json2); [done|reflexivity|reflexivity|].
  vm_compute. discriminate.
Defined.

(** * The single-key runner *)

Section WatchFacts.
Context `{Libraries}.
Context {CB : Type}.
Implicit Types (fn : @specHandleFunc CB) (inf : @meshInformer CB).
Implicit Types (evs ch : list (option clientv3_Event)).

Lemma last_raw_nil (v0 : string) : last_raw v0 [] = v0.
Proof. done. Qed.

Lemma last_raw_cons (v0 : string) event evs :
  last_raw v0 (event :: evs) = last_raw (next_raw v0 event) evs.
Proof.
  unfold last_raw, raw_values. destruct event as [event|]; simpl; [|done].
  rewrite last_cons. by destruct (last _).
Qed.

Lemma expected_deliveries_nil (path : GJSONPath) (v0 : string) :
  expected_deliveries path v0 [] = [].
Proof. done. Qed.

Lemma expected_deliveries_cons (path : GJSONPath) (v0 : string) event evs :
  expected_deliveries path v0 (event :: evs) =
    (expected_for path v0 event ++ expected_deliveries path (next_raw v0 event) evs)%list.
Proof.
  unfold expected_deliveries. rewrite imap_cons. simpl. f_equal. f_equal.
  apply imap_ext. intros i x _. simpl. by rewrite last_raw_cons.
Qed.

(** When the whole document is watched, a value event is expected to be
    delivered exactly when its raw value is not the most recent one. *)
Lemma expected_for_AllParts (last : string) (event : clientv3_Event) :
  expected_for AllParts last (Some event) =
    if decide (last = Value (Kv event)) then [] else [inform_update event].
Proof.
  unfold expected_for, comparePart. simpl. rewrite String_eqb_decide.
  destruct (decide _).
  - by rewrite bool_decide_eq_true_2.
  - by rewrite bool_decide_eq_false_2.
Qed.

(** A delivery logs the call; the informer is touched only when the
    callback returns false. *)
Lemma deliver_calls fn (wk : string) (ev : Event) (v old' : string)
    (st : @meshInformer CB * watchLocals) :
  calls (deliver fn wk ev v old' st).2 = (calls st.2 ++ [(ev, v)])%list
  ∧ oldValue (deliver fn wk ev v old' st).2 = old'.
Proof. done. Qed.


(** What one turn of the loop does to [oldValue] and to the log of calls,
    whatever the callback returns. *)
Lemma watch_body_locals (wk : string) (path : GJSONPath) fn
    (st : @meshInformer CB * watchLocals) event :
  oldValue (watch_body wk path fn st event).2 = next_raw (oldValue st.2) event
  ∧ calls (watch_body wk path fn st event).2 =
      (calls st.2 ++ expected_for path (oldValue st.2) event)%list.
Proof.
  unfold watch_body, expected_for. destruct event as [event|]; simpl.
  - destruct (comparePart _ _ _); simpl; [by rewrite app_nil_r|done].
  - done.
Qed.


(** The whole loop: it leaves in [oldValue] the last raw value received and
    has delivered what was expected, in the order of the events. *)
Lemma watch_loop_locals (wk : string) (path : GJSONPath) fn evs
    (st : @meshInformer CB * watchLocals) :
  oldValue (foldl (watch_body wk path fn) st evs).2 = last_raw (oldValue st.2) evs
  ∧ calls (foldl (watch_body wk path fn) st evs).2 =
      (calls st.2 ++ expected_deliveries path (oldValue st.2) evs)%list.
Proof.
  revert st. induction evs as [|event evs IH]; intros st; simpl.
  - by rewrite app_nil_r.
  - destruct (IH (watch_body wk path fn st event)) as [-> ->].
    destruct (watch_body_locals wk path fn st event) as [-> ->].
    by rewrite last_raw_cons, expected_deliveries_cons, app_assoc.
Qed.


(** The closure of the callback is in the state the calls of the log leave
    it in: the log holds the calls that were made, and only those. *)
Lemma replay_app fn (c : CB) (d1 d2 : list (Event * string)) :
  replay fn c (d1 ++ d2) = replay fn (replay fn c d1) d2.
Proof. apply foldl_app. Qed.

Lemma watch_body_closure (wk : string) (path : GJSONPath) fn
    (st : @meshInformer CB * watchLocals) event :
  closure (watch_body wk path fn st event).2 =
    replay fn (closure st.2) (expected_for path (oldValue st.2) event).
Proof.
  unfold watch_body, expected_for. destruct event as [event|]; [|done].
  by destruct (comparePart _ _ _).
Qed.

Lemma watch_loop_closure (wk : string) (path : GJSONPath) fn evs
    (st : @meshInformer CB * watchLocals) :
  closure (foldl (watch_body wk path fn) st evs).2 =
    replay fn (closure st.2) (expected_deliveries path (oldValue st.2) evs).
Proof.
  revert st. induction evs as [|event evs IH]; intros st; simpl; [done|].
  rewrite IH, watch_body_closure, expected_deliveries_cons, replay_app.
  by destruct (watch_body_locals wk path fn st event) as [-> _].
Qed.




(** C10: the first receive decides whether the runner runs at all.  When
    the channel first delivers a value event, the runner returns and its
    first delivery is that event, as an Update, whatever its value; when it
    first delivers a deletion marker, or is closed before it delivered
    anything, the runner dereferences a nil pointer and no callback is
    called. *)
Theorem watch_first_receive ch (wk : string) (path : GJSONPath) fn (c : CB) inf :
  match ch with
  | Some event :: _ =>
      ∃ st, watch ch wk path fn c inf = Return st
            ∧ head (calls st.2) = Some (inform_update event)
  | _ => watch ch wk path fn c inf = Panic
  end.
Proof.
  destruct ch as [|[event|] ch]; [done| |done].
  eexists. split; [reflexivity|].
  set (st0 := deliver _ _ _ _ _ _).
  destruct (watch_loop_locals wk path fn ch st0) as [_ ->].
  assert (calls st0.2 = [inform_update event]) as ->
    by (subst st0; apply deliver_calls).
  done.
Qed.

End WatchFacts.



(** * The prefix runner *)

Section WatchPrefixFacts.
Context {CB : Type}.
Implicit Types (fn : @specsHandleFunc CB) (inf : @meshInformer CB).
Implicit Types (batch : gmap string (option clientv3_Event)).
Implicit Types (acc : gmap string string * bool).

(** One entry of a batch. *)
Lemma update_entry_spec acc (k : string) (v : option clientv3_Event) :
  (update_entry acc (k, v)).1 !! k = (Value ∘ Kv) <$> v
  ∧ (∀ k', k' ≠ k → (update_entry acc (k, v)).1 !! k' = acc.1 !! k')
  ∧ ((update_entry acc (k, v)).2 = true ↔ acc.2 = true ∨ entry_changes acc.1 k v).
Proof.
  destruct acc as [m b]. unfold update_entry, entry_changes.
  destruct v as [v|]; simpl.
  - destruct (m !! k) as [old|] eqn:Hold; simpl.
    + destruct (String.eqb_spec old (Value (Kv v))) as [->|Hne]; simpl.
      * split_and!; [done|done|]. split; [by left|]. by intros [?|?].
      * rewrite lookup_insert_eq. split_and!; [done| |].
        -- intros k' Hk'. by rewrite lookup_insert_ne.
        -- split; [|done]. intros _. right. congruence.
    + rewrite lookup_insert_eq. split_and!; [done| |].
      * intros k' Hk'. by rewrite lookup_insert_ne.
      * split; [|done]. intros _. by right.
  - rewrite lookup_delete_eq. split_and!; [done| |].
    + intros k' Hk'. by rewrite lookup_delete_ne.
    + split; [|done]. intros _. by right.
Qed.

Lemma entry_changes_lookup (kvs1 kvs2 : gmap string string) (k : string)
    (v : option clientv3_Event) :
  kvs1 !! k = kvs2 !! k → entry_changes kvs1 k v ↔ entry_changes kvs2 k v.
Proof. intros Heq. unfold entry_changes. destruct v; [by rewrite Heq|done]. Qed.

(** The entries of a batch in any order in which each key comes once. *)
Lemma update_entries_spec (l : list (string * option clientv3_Event)) acc :
  NoDup l.*1 →
  (∀ k, (foldl update_entry acc l).1 !! k = entry_after acc.1 (list_to_map l) k)
  ∧ ((foldl update_entry acc l).2 = true ↔
       acc.2 = true ∨ ∃ k v, (k, v) ∈ l ∧ entry_changes acc.1 k v).
Proof.
  revert acc. induction l as [|[k0 v0] l IH]; intros acc Hnodup.
  - simpl. split; [done|]. split; [by left|]. intros [?|(k & v & Hin & _)]; [done|].
    by apply elem_of_nil in Hin.
  - simpl in Hnodup. apply NoDup_cons in Hnodup as [Hk0 Hnodup].
    destruct (update_entry_spec acc k0 v0) as (Hat & Hother & Hflag).
    destruct (IH (update_entry acc (k0, v0)) Hnodup) as [IHkvs IHflag].
    simpl. split.
    + intros k. rewrite IHkvs. unfold entry_after.
      destruct (decide (k = k0)) as [->|Hne].
      * rewrite lookup_insert_eq.
        rewrite (not_elem_of_list_to_map_1 _ _ Hk0), Hat. by destruct v0.
      * rewrite lookup_insert_ne by done.
        destruct (list_to_map l !! k) as [[?|]|]; [done|done|]. by apply Hother.
    + rewrite IHflag, Hflag. split.
      * intros [[?|?]|(k & v & Hin & Hch)].
        -- by left.
        -- right. exists k0, v0. split; [apply elem_of_cons; by left|done].
        -- right. exists k, v. split; [apply elem_of_cons; by right|].
           apply (entry_changes_lookup _ _ _ _ (Hother k ltac:(
             intros ->; apply Hk0, list_elem_of_fmap; by exists (k0, v)))). done.
      * intros [?|(k & v & Hin & Hch)]; [by left; left|].
        apply elem_of_cons in Hin as [[= -> ->]|Hin]; [by left; right|].
        right. exists k, v. split; [done|].
        apply (entry_changes_lookup _ _ _ _ (Hother k ltac:(
          intros ->; apply Hk0, list_elem_of_fmap; by exists (k0, v)))). done.
Qed.

(** The loop over a batch, from the snapshot [kvs] and [changed = false]. *)
Lemma range_update_entry (kvs0 : gmap string string) batch :
  (∀ k, (range update_entry (kvs0, false) batch).1 !! k = entry_after kvs0 batch k)
  ∧ ((range update_entry (kvs0, false) batch).2 = true ↔ batch_changes kvs0 batch).
Proof.
  unfold range.
  destruct (update_entries_spec (map_to_list batch) (kvs0, false)
              (NoDup_fst_map_to_list batch)) as [Hkvs Hflag].
  rewrite list_to_map_to_list in Hkvs. split; [done|].
  rewrite Hflag. unfold batch_changes. simpl. split.
  - intros [?|(k & v & Hin & Hch)]; [done|].
    exists k, v. by rewrite <- elem_of_map_to_list.
  - intros (k & v & Hin & Hch). right. exists k, v. by rewrite elem_of_map_to_list.
Qed.

(** Go does not fix the order in which a map is ranged over: any order
    gives the same snapshot and the same flag. *)
Lemma range_update_entry_any_order (l : list (string * option clientv3_Event)) acc batch :
  l ≡ₚ map_to_list batch →
  foldl update_entry acc l = range update_entry acc batch.
Proof.
  intros Hperm. unfold range.
  assert (NoDup l.*1) as Hnodup by (rewrite Hperm; apply NoDup_fst_map_to_list).
  destruct (update_entries_spec l acc Hnodup) as [Hkvs Hflag].
  destruct (update_entries_spec (map_to_list batch) acc (NoDup_fst_map_to_list batch))
    as [Hkvs' Hflag'].
  rewrite (list_to_map_proper l (map_to_list batch) Hnodup Hperm) in Hkvs.
  destruct (foldl update_entry acc l) as [m b],
           (foldl update_entry acc (map_to_list batch)) as [m' b']. simpl in *.
  f_equal.
  - apply map_eq. intros k. by rewrite Hkvs, Hkvs'.
  - apply eq_true_iff_eq. rewrite Hflag, Hflag'.
    by setoid_rewrite Hperm.
Qed.


End WatchPrefixFacts.

(** * The watcher registry *)

Section RegistryFacts.
Context {CB : Type}.
Implicit Types (inf : @meshInformer CB) (fn : @specHandleFunc CB).

Lemma onSpecPart_closed (storeKey wk : string) (path : GJSONPath) fn inf :
  closed inf = true → onSpecPart storeKey wk path fn inf = (Some ErrClosed, inf).
Proof. intros Hclosed. unfold onSpecPart. by rewrite Hclosed. Qed.

Lemma onSpecs_closed (storePrefix wk : string) (fn : @specsHandleFunc CB) inf :
  closed inf = true → onSpecs storePrefix wk fn inf = (Some ErrClosed, inf).
Proof. intros Hclosed. unfold onSpecs. by rewrite Hclosed. Qed.

Lemma onSpecPart_watched (storeKey wk : string) (path : GJSONPath) fn inf :
  closed inf = false → is_Some (watchers inf !! wk) →
  onSpecPart storeKey wk path fn inf = (Some ErrAlreadyWatched, inf).
Proof.
  intros Hclosed Hsome. unfold onSpecPart. rewrite Hclosed.
  by rewrite decide_True.
Qed.

(** A registration that reaches the store, and a store that answers. *)
Lemma onSpecPart_ok (storeKey wk : string) (path : GJSONPath) fn inf (kv : KeyValue) :
  closed inf = false →
  watchers inf !! wk = None →
  GetRaw (store inf) storeKey = inr (Some kv) →
  NewWatcher (store inf) = None →
  WatchRawFromRev (store inf) storeKey (ModRevision kv) = None →
  onSpecPart storeKey wk path fn inf =
    (None,
     {| store := store inf;
        watchers := <[wk := issued inf]> (watchers inf);
        closed := false; issued := S (issued inf);
        closedWatchers := closedWatchers inf;
        spawned := (spawned inf ++
          [GoWatch (issued inf) storeKey (ModRevision kv) wk path fn])%list |}).
Proof.
  intros Hclosed Hfree Hget Hnew Hwatch. unfold onSpecPart.
  rewrite Hclosed, Hfree, Hget, Hnew, Hwatch.
  rewrite decide_False; [done|]. by intros [? ?].
Qed.

(** A registration returns nil only when it recorded its watch key. *)
Lemma onSpecPart_nil (storeKey wk : string) (path : GJSONPath) fn inf :
  (onSpecPart storeKey wk path fn inf).1 = None →
  closed (onSpecPart storeKey wk path fn inf).2 = false
  ∧ is_Some (watchers (onSpecPart storeKey wk path fn inf).2 !! wk).
Proof.
  unfold onSpecPart.
  destruct (closed inf) eqn:Hclosed; [done|].
  destruct (decide _); [done|].
  destruct (GetRaw _ _) as [|[kv|]]; [done| |done].
  destruct (NewWatcher _); [done|].
  destruct (WatchRawFromRev _ _ _); [done|]. simpl. intros _.
  split; [done|]. rewrite lookup_insert_eq. by eexists.
Qed.

Lemma stopWatchOneKey_absent (key : string) inf :
  watchers inf !! key = None → stopWatchOneKey key inf = inf.
Proof. intros Hnone. unfold stopWatchOneKey. by rewrite Hnone. Qed.

Lemma stopWatchOneKey_present (key : string) inf (w : Watcher) :
  watchers inf !! key = Some w →
  watchers (stopWatchOneKey key inf) = delete key (watchers inf)
  ∧ closedWatchers (stopWatchOneKey key inf) = {[w]} ∪ closedWatchers inf.
Proof. intros Hsome. unfold stopWatchOneKey. by rewrite Hsome. Qed.

(** Cancelling twice is cancelling once. *)
Lemma stopWatchOneKey_idemp (key : string) inf :
  stopWatchOneKey key (stopWatchOneKey key inf) = stopWatchOneKey key inf.
Proof.
  destruct (watchers inf !! key) as [w|] eqn:Hkey.
  - apply stopWatchOneKey_absent.
    destruct (stopWatchOneKey_present key inf w Hkey) as [-> _].
    apply lookup_delete_eq.
  - rewrite (stopWatchOneKey_absent key inf Hkey).
    by apply stopWatchOneKey_absent.
Qed.

(** The loop of [Close] calls [Close()] on the handles of the table. *)
Lemma Close_closedWatchers inf :
  closedWatchers (Close inf) =
    map_img (SA := gset Watcher) (watchers inf) ∪ closedWatchers inf.
Proof.
  unfold Close. simpl.
  apply (map_fold_weak_ind (λ r m, r = map_img (SA := gset Watcher) m ∪ closedWatchers inf)).
  - by rewrite map_img_empty_L, (left_id_L ∅ (∪)).
  - intros k w m r Hk ->. rewrite map_img_insert_notin_L by done.
    by rewrite (assoc_L (∪)).
Qed.

(** Nothing reopens a closed informer. *)
Lemma step_closed inf (c : call) : closed inf = true → closed (step inf c) = true.
Proof.
  intros Hclosed. destruct c; simpl.
  - by rewrite onSpecPart_closed.
  - by rewrite onSpecs_closed.
  - unfold stopWatchOneKey. by destruct (watchers inf !! key).
  - done.
  - done.
Qed.

Lemma run_closed inf (history : list call) :
  closed inf = true → closed (run inf history) = true.
Proof.
  revert inf. induction history as [|c history IH]; intros inf Hclosed; [done|].
  simpl. by apply IH, step_closed.
Qed.

(** What [Close] does: it calls [Close()] on the handle of every entry of
    the table and marks the informer closed, and does not write the table;
    whatever is called afterwards, every registration, of a key or of a
    prefix, fails with [ErrClosed] and changes nothing. *)
Theorem Close_spec inf (history : list call) :
  closedWatchers (Close inf) =
    map_img (SA := gset Watcher) (watchers inf) ∪ closedWatchers inf
  ∧ watchers (Close inf) = watchers inf
  ∧ closed (run (Close inf) history) = true
  ∧ (∀ storeKey wk path fn,
       onSpecPart storeKey wk path fn (run (Close inf) history) =
         (Some ErrClosed, run (Close inf) history))
  ∧ (∀ storePrefix wk (fns : @specsHandleFunc CB),
       onSpecs storePrefix wk fns (run (Close inf) history) =
         (Some ErrClosed, run (Close inf) history)).
Proof.
  assert (closed (run (Close inf) history) = true) as Hclosed by by apply run_closed.
  split_and!.
  - apply Close_closedWatchers.
  - done.
  - done.
  - intros. by apply onSpecPart_closed.
  - intros. by apply onSpecs_closed.
Qed.

(** C8: a registration that reads the store and finds no record fails with
    [ErrNotFound] and leaves the informer as it was: the table is
    unchanged, no handle was asked for, no goroutine was started. *)
Theorem onSpecPart_not_found (storeKey wk : string) (path : GJSONPath) fn inf :
  closed inf = false →
  watchers inf !! wk = None →
  GetRaw (store inf) storeKey = inr None →
  onSpecPart storeKey wk path fn inf = (Some ErrNotFound, inf).
Proof.
  intros Hclosed Hfree Hget. unfold onSpecPart.
  rewrite Hclosed, Hfree, Hget.
  rewrite decide_False; [done|]. by intros [? ?].
Qed.

(** C9: once a watch key is registered, registering it again fails with
    [ErrAlreadyWatched] and changes nothing, whatever is asked for and
    whatever the store holds; cancelling it closes its handle and removes
    its entry, cancelling again does nothing, and the watch key can then be
    registered again. *)
Theorem onSpecPart_again (storeKey wk : string) (path : GJSONPath) fn inf (kv : KeyValue) :
  closed inf = false →
  watchers inf !! wk = None →
  GetRaw (store inf) storeKey = inr (Some kv) →
  NewWatcher (store inf) = None →
  WatchRawFromRev (store inf) storeKey (ModRevision kv) = None →
  let r1 := onSpecPart storeKey wk path fn inf in
  let inf2 := stopWatchOneKey wk r1.2 in
  let r3 := onSpecPart storeKey wk path fn inf2 in
  r1.1 = None
  ∧ watchers r1.2 !! wk = Some (issued inf)
  ∧ (∀ st storeKey' path' fn',
       onSpecPart storeKey' wk path' fn' (withStore st r1.2) =
         (Some ErrAlreadyWatched, withStore st r1.2))
  ∧ watchers inf2 = watchers inf
  ∧ closedWatchers inf2 = {[issued inf]} ∪ closedWatchers inf
  ∧ stopWatchOneKey wk inf2 = inf2
  ∧ r3.1 = None
  ∧ watchers r3.2 !! wk = Some (S (issued inf)).
Proof.
  intros Hclosed Hfree Hget Hnew Hwatch r1 inf2 r3.
  assert (r1 = _) as Hr1 by exact (onSpecPart_ok storeKey wk path fn inf kv
                                      Hclosed Hfree Hget Hnew Hwatch).
  clearbody r1. subst r1. simpl in inf2.
  assert (inf2 =
    {| store := store inf; watchers := watchers inf; closed := false;
       issued := S (issued inf);
       closedWatchers := {[issued inf]} ∪ closedWatchers inf;
       spawned := (spawned inf ++
         [GoWatch (issued inf) storeKey (ModRevision kv) wk path fn])%list |})
    as Hinf2.
  { subst inf2. unfold stopWatchOneKey. simpl. rewrite lookup_insert_eq.
    rewrite delete_insert_eq, delete_id by done. reflexivity. }
  clearbody inf2. subst inf2.
  assert (r3 = _) as Hr3 by (apply (onSpecPart_ok storeKey wk path fn _ kv); done).
  clearbody r3. subst r3. simpl.
  split_and!.
  - done.
  - apply lookup_insert_eq.
  - intros st storeKey' path' fn'. apply onSpecPart_watched; [done|].
    simpl. rewrite lookup_insert_eq. by eexists.
  - done.
  - done.
  - by apply stopWatchOneKey_absent.
  - done.
  - apply lookup_insert_eq.
Qed.

End RegistryFacts.

(** C2: an informer with one live subscription, closed.  The handle of
    the subscription is closed and the informer is marked closed, but the
    entry is still in the table, where [stopWatchOneKey] closes and deletes:
    a cancellation of the watch key after the shutdown finds the entry and
    is the one that removes it, closing its closed handle again. *)
Lemma Close_keeps_entries :
  let inf := (@OnPartOfServiceSpec Sample.layout Sample.specs unit
                "s" "" Sample.keep (NewInformer Sample.store)).2 in
  watchers inf = {[ "service-spec-s-" := 0 ]}
  ∧ closedWatchers (Close inf) = {[ 0 ]}
  ∧ closed (Close inf) = true
  ∧ size (watchers (Close inf)) = 1
  ∧ watchers (Close inf) !! "service-spec-s-" = Some 0
  ∧ watchers (StopWatchServiceSpec "s" "" (Close inf)) = ∅
  ∧ watchers (Close inf) ≠ ∅.
Proof.
  split_and!; [reflexivity..|].
  intros Hempty.
  assert (size (watchers (Close (@OnPartOfServiceSpec Sample.layout Sample.specs unit
            "s" "" Sample.keep (NewInformer Sample.store)).2)) = 0) as Hsize
    by (rewrite Hempty; reflexivity).
  vm_compute in Hsize. discriminate.
Qed.

Lemma onSpecPart_not_found_witness :
  @onSpecPart unit "/mesh/service-spec/absent" "service-spec-absent-" ""
      (@specFunc unit (@Service Sample.specs) Sample.keep) (NewInformer Sample.store)
    = (Some ErrNotFound, NewInformer Sample.store).
Proof. apply onSpecPart_not_found; reflexivity. Defined.

Lemma onSpecPart_again_witness :
  let fn := @specFunc unit (@Service Sample.specs) Sample.keep in
  let r1 := onSpecPart "/mesh/service-spec/s" "service-spec-s-" "" fn
              (NewInformer Sample.store) in
  r1.1 = None
  ∧ (onSpecPart "/mesh/service-spec/s" "service-spec-s-" "" fn r1.2).1
      = Some ErrAlreadyWatched
  ∧ (onSpecPart "/mesh/service-spec/s" "service-spec-s-" "" fn
       (stopWatchOneKey "service-spec-s-" r1.2)).1 = None.
Proof.
  intros fn r1.
  destruct (onSpecPart_again "/mesh/service-spec/s" "service-spec-s-" "" fn
              (NewInformer Sample.store)
              (Sample.record "/mesh/service-spec/s" "{a: 1, b: 2}" 5)
              eq_refl eq_refl eq_refl eq_refl eq_refl)
    as (Hfirst & _ & Hsecond & _ & _ & _ & Hthird & _).
  split_and!.
  - exact Hfirst.
  - exact (f_equal fst (Hsecond Sample.store "/mesh/service-spec/s" "" fn)).
  - exact Hthird.
Defined.

(** * The watch keys of the typed bindings *)

Section WatchKeys.
Context `{Layout} `{Specs}.
Context {CB : Type}.
Implicit Types (inf : @meshInformer CB).

(** The watch keys of a service, of an instance spec and of an instance
    status end with the path: with the same names, two paths give two watch
    keys. *)
Lemma serviceSpecWatcherKey_path (serviceName : string) (p1 p2 : GJSONPath) :
  serviceSpecWatcherKey serviceName p1 = serviceSpecWatcherKey serviceName p2 → p1 = p2.
Proof.
  unfold serviceSpecWatcherKey. intros Heq.
  by repeat apply (inj (String.app _)) in Heq.
Qed.

Lemma instance_watch_key_path (kind serviceName instanceID : string) (p1 p2 : GJSONPath) :
  kind ++ serviceName ++ "-" ++ instanceID ++ "-" ++ p1 =
  kind ++ serviceName ++ "-" ++ instanceID ++ "-" ++ p2 → p1 = p2.
Proof. intros Heq. by repeat apply (inj (String.app _)) in Heq. Qed.

(** The watch key of a tenant and the one of an ingress leave the path out:
    once one part of a tenant or of an ingress is watched, a registration
    for any other part of it fails with [ErrAlreadyWatched]. *)
Lemma OnPartOfTenantSpec_other_path (tenant : string) (p1 p2 : GJSONPath)
    (fn1 fn2 : CB → Event → Tenant → CB * bool) inf :
  (OnPartOfTenantSpec tenant p1 fn1 inf).1 = None →
  OnPartOfTenantSpec tenant p2 fn2 (OnPartOfTenantSpec tenant p1 fn1 inf).2 =
    (Some ErrAlreadyWatched, (OnPartOfTenantSpec tenant p1 fn1 inf).2).
Proof.
  unfold OnPartOfTenantSpec. intros Hnil.
  apply onSpecPart_nil in Hnil as [Hclosed Hwatched].
  by apply onSpecPart_watched.
Qed.

Lemma OnPartOfIngressSpec_other_path (ingress : string) (p1 p2 : GJSONPath)
    (fn1 fn2 : CB → Event → Ingress → CB * bool) inf :
  (OnPartOfIngressSpec ingress p1 fn1 inf).1 = None →
  OnPartOfIngressSpec ingress p2 fn2 (OnPartOfIngressSpec ingress p1 fn1 inf).2 =
    (Some ErrAlreadyWatched, (OnPartOfIngressSpec ingress p1 fn1 inf).2).
Proof.
  unfold OnPartOfIngressSpec. intros Hnil.
  apply onSpecPart_nil in Hnil as [Hclosed Hwatched].
  by apply onSpecPart_watched.
Qed.

End WatchKeys.

(** C3: on a store that holds the service [s], the tenant [t] and the
    ingress [i], a second part of the service can be watched next to a
    first one, while watching a second part of the tenant, or of the
    ingress, fails with [ErrAlreadyWatched]: the watch keys [tenant-t] and
    [ingress-i] do not depend on the path. *)
Theorem tenant_and_ingress_watch_keys :
  let inf0 : @meshInformer unit := NewInformer Sample.store in
  let service p := @OnPartOfServiceSpec Sample.layout Sample.specs unit "s" p Sample.keep in
  let tenant p := @OnPartOfTenantSpec Sample.layout Sample.specs unit "t" p Sample.keep in
  let ingress p := @OnPartOfIngressSpec Sample.layout Sample.specs unit "i" p Sample.keep in
  ((service "a" inf0).1 = None ∧ (service "b" (service "a" inf0).2).1 = None)
  ∧ ((tenant "a" inf0).1 = None
     ∧ (tenant "b" (tenant "a" inf0).2).1 = Some ErrAlreadyWatched
     ∧ dom (watchers (tenant "a" inf0).2) = {[ "tenant-t" ]})
  ∧ ((ingress "a" inf0).1 = None
     ∧ (ingress "b" (ingress "a" inf0).2).1 = Some ErrAlreadyWatched
     ∧ dom (watchers (ingress "a" inf0).2) = {[ "ingress-i" ]}).
Proof. repeat split; reflexivity. Qed.

(** * More on the single-key runner *)

Section WatchMore.
Context `{Libraries}.
Context {CB : Type}.
Implicit Types (fn : @specHandleFunc CB) (inf : @meshInformer CB).
Implicit Types (evs ch : list (option clientv3_Event)).

(** What a cancellation leaves alone. *)
Lemma stopWatchOneKey_frame (key : string) inf :
  store (stopWatchOneKey key inf) = store inf
  ∧ closed (stopWatchOneKey key inf) = closed inf
  ∧ issued (stopWatchOneKey key inf) = issued inf
  ∧ spawned (stopWatchOneKey key inf) = spawned inf
  ∧ watchers (stopWatchOneKey key inf) = delete key (watchers inf)
  ∧ closedWatchers inf ⊆ closedWatchers (stopWatchOneKey key inf).
Proof.
  unfold stopWatchOneKey. destruct (watchers inf !! key) as [w|] eqn:Hkey; simpl.
  - split_and!; [done..|]. set_solver.
  - split_and!; [done..| |done]. by rewrite delete_id.
Qed.

Lemma deliver_informer fn (wk : string) (ev : Event) (v old' : string)
    (st : @meshInformer CB * watchLocals) :
  (deliver fn wk ev v old' st).1 =
    if (fn (closure st.2) ev v).2 then st.1 else stopWatchOneKey wk st.1.
Proof. done. Qed.

Lemma watch_body_informer (wk : string) (path : GJSONPath) fn
    (st : @meshInformer CB * watchLocals) event :
  (watch_body wk path fn st event).1 = st.1
  ∨ (watch_body wk path fn st event).1 = stopWatchOneKey wk st.1.
Proof.
  unfold watch_body. destruct event as [event|].
  - destruct (comparePart _ _ _); [by left|].
    rewrite deliver_informer. destruct (fn _ _ _).2; auto.
  - rewrite deliver_informer. destruct (fn _ _ _).2; auto.
Qed.

(** X1: what is delivered does not depend on what the callback returns.  A
    false return cancels the registration, and the events the channel still
    delivers are handled as before; the callback is applied to exactly the
    deliveries listed, in that order. *)
Theorem watch_calls (path : GJSONPath) (wk : string) fn (c : CB) inf
    (event : clientv3_Event) ch :
  ∃ st,
    watch (Some event :: ch) wk path fn c inf = Return st
    ∧ oldValue st.2 = last_raw (Value (Kv event)) ch
    ∧ calls st.2 =
        inform_update event :: expected_deliveries path (Value (Kv event)) ch
    ∧ closure st.2 = replay fn c (calls st.2).
Proof.
  eexists. split; [reflexivity|].
  set (st0 := deliver _ _ _ _ _ _).
  rewrite (watch_loop_closure wk path fn ch st0).
  destruct (watch_loop_locals wk path fn ch st0) as [-> ->]. done.
Qed.

Lemma update_values_app (d1 d2 : list (Event * string)) :
  update_values (d1 ++ d2) = (update_values d1 ++ update_values d2)%list.
Proof. unfold update_values. by rewrite filter_app, fmap_app. Qed.

Lemma update_values_expected (v0 : string) evs :
  update_values (expected_deliveries AllParts v0 evs) =
    compress_from v0 (raw_values evs).
Proof.
  revert v0. induction evs as [|event evs IH]; intros v0; [done|].
  rewrite expected_deliveries_cons, update_values_app, IH.
  destruct event as [event|]; [|done].
  rewrite expected_for_AllParts. simpl.
  change (raw_values (Some event :: evs)) with (Value (Kv event) :: raw_values evs).
  simpl. by destruct (decide (v0 = Value (Kv event))).
Qed.

(** X4: when the whole document is watched, the values delivered as Updates
    are the raw values received without their immediate repetitions;
    deletions in between do not reset what a value is compared with. *)
Theorem watch_AllParts_updates (wk : string) fn (c : CB) inf
    (event : clientv3_Event) ch :
  ∃ st,
    watch (Some event :: ch) wk AllParts fn c inf = Return st
    ∧ update_values (calls st.2) =
        Value (Kv event) :: compress_from (Value (Kv event)) (raw_values ch)
    ∧ closure st.2 = replay fn c (calls st.2).
Proof.
  eexists. split; [reflexivity|].
  set (st0 := deliver _ _ _ _ _ _).
  rewrite (watch_loop_closure wk AllParts fn ch st0).
  destruct (watch_loop_locals wk AllParts fn ch st0) as [_ ->].
  split; [|done].
  by rewrite update_values_app, update_values_expected.
Qed.

Lemma Type_eqb_refl (t : gjson.Type_) : gjson.Type_eqb t t = true.
Proof. by destruct t. Qed.

(** X5: a document compared with itself is reported equal at every path,
    as long as the number [gjson.Get] finds at the path is equal to itself
    (any number but NaN). *)
Theorem comparePart_same (p : GJSONPath) (d : string) :
  (∀ j, YAMLToJSON d = Some j →
        float64_eqb (gjson.Num (gjson_Get j p)) (gjson.Num (gjson_Get j p)) = true) →
  comparePart p d d = true.
Proof.
  intros Hnum. unfold comparePart.
  destruct (String.eqb p AllParts); [apply String.eqb_refl|].
  destruct (YAMLToJSON d) as [j|] eqn:Hj; [|done].
  unfold Result_eqb.
  by rewrite Type_eqb_refl, !String.eqb_refl, (Hnum j eq_refl), Z.eqb_refl.
Qed.

End WatchMore.

Lemma comparePart_same_witness :
  @comparePart Sample.libraries "b" Sample.doc1 Sample.doc1 = true.
Proof.
  apply (@comparePart_same Sample.libraries "b" Sample.doc1).
  intros j Hj. apply Z.eqb_refl.
Defined.

Section TypedCallbacks.
Context `{Libraries}.
Context {CB : Type}.
Implicit Types (inf : @meshInformer CB).

(** The stream has only value events, none of which decodes. *)
Lemma specFunc_undecodable (T : Document) (tfn : CB → Event → T → CB * bool)
    (c : CB) (event : clientv3_Event) :
  Unmarshal T (Value (Kv event)) = None →
  specFunc T tfn c (mkEvent EventUpdate (Some (Kv event))) (Value (Kv event)) = (c, true).
Proof. intros Hbad. unfold specFunc. simpl. by rewrite Hbad. Qed.

(** X6: records that do not decode are skipped: over a stream of value
    events none of which decodes into the document type, the typed callback
    is never called (the state of its closure is the initial one) and the
    registration is never cancelled, whatever the typed callback would have
    returned. *)
Theorem watch_undecodable (T : Document) (tfn : CB → Event → T → CB * bool)
    (path : GJSONPath) (wk : string) (c : CB) inf
    (ch : list (option clientv3_Event)) :
  ch ≠ [] →
  Forall (λ ev, ∃ event, ev = Some event ∧ Unmarshal T (Value (Kv event)) = None) ch →
  ∃ st,
    watch ch wk path (specFunc T tfn) c inf = Return st
    ∧ st.1 = inf
    ∧ closure st.2 = c.
Proof.
  intros Hne Hall. destruct ch as [|ev0 ch]; [done|]. clear Hne.
  apply Forall_cons in Hall as [(event & -> & Hbad) Hall].
  eexists. split; [reflexivity|].
  set (st0 := deliver _ _ _ _ _ _).
  assert (st0.1 = inf ∧ closure st0.2 = c) as Hst0.
  { subst st0. unfold deliver. simpl. by rewrite specFunc_undecodable. }
  clearbody st0. revert st0 Hst0.
  induction Hall as [|ev ch' (e & -> & Hb) _ IH]; intros st0 [Hinf Hc]; simpl; [done|].
  apply IH. unfold watch_body.
  destruct (comparePart _ _ _); simpl; [done|].
  unfold deliver. simpl. rewrite Hc, specFunc_undecodable by done. done.
Qed.

End TypedCallbacks.

Lemma watch_undecodable_witness :
  ∃ st,
    @watch Sample.libraries unit
      [Sample.value_event "k" Sample.doc1 5; Sample.value_event "k" Sample.doc2 6]
      "w" "b"
      (specFunc {| doc := string; zero := ""; Unmarshal := λ _, None |}
         (λ _ _ _, (tt, false)))
      tt (NewInformer Sample.store) = Return st
    ∧ st.1 = NewInformer Sample.store.
Proof.
  destruct (@watch_undecodable Sample.libraries unit
              {| doc := string; zero := ""; Unmarshal := λ _, None |}
              (λ _ _ _, (tt, false)) "b" "w" tt (NewInformer Sample.store)
              [Sample.value_event "k" Sample.doc1 5; Sample.value_event "k" Sample.doc2 6])
    as (st & Hst & Hinf & _).
  - done.
  - repeat constructor; eexists; split; reflexivity.
  - exists st. split; [exact Hst|exact Hinf].
Defined.

(** * More on the prefix runner *)

Section WatchPrefixMore.
Context {CB : Type}.
Implicit Types (fn : @specsHandleFunc CB) (inf : @meshInformer CB).
Implicit Types (batch : gmap string (option clientv3_Event)).

Lemma seed_entries_lookup (l : list (string * option clientv3_Event))
    (m : gmap string string) (k : string) :
  NoDup l.*1 →
  foldl seed_entry m l !! k =
    match (list_to_map l : gmap string (option clientv3_Event)) !! k with
    | Some (Some v) => Some (Value (Kv v))
    | _ => m !! k
    end.
Proof.
  revert m. induction l as [|[k0 v0] l IH]; intros m Hnodup; [done|].
  simpl in Hnodup. apply NoDup_cons in Hnodup as [Hk0 Hnodup].
  simpl. rewrite IH by done. unfold seed_entry. simpl.
  destruct (decide (k = k0)) as [->|Hne].
  - rewrite lookup_insert_eq, (not_elem_of_list_to_map_1 _ _ Hk0).
    destruct v0; [by rewrite lookup_insert_eq|done].
  - rewrite lookup_insert_ne by done.
    destruct (list_to_map l !! k) as [[?|]|]; [done| |];
      (destruct v0; [by rewrite lookup_insert_ne|done]).
Qed.

(** The first loop of [watchPrefix] builds the seed of the batch. *)
Lemma range_seed_entry batch : range seed_entry ∅ batch = seed_of batch.
Proof.
  apply map_eq. intros k. unfold range, seed_of.
  rewrite seed_entries_lookup by apply NoDup_fst_map_to_list.
  rewrite list_to_map_to_list, lookup_omap.
  by destruct (batch !! k) as [[?|]|].
Qed.

Lemma watchPrefix_body_locals (wk : string) fn (st : @meshInformer CB * prefixLocals) batch :
  (pcalls (watchPrefix_body wk fn st batch).2 = pcalls st.2
   ∧ kvs (watchPrefix_body wk fn st batch).2 = kvs st.2)
  ∨ pcalls (watchPrefix_body wk fn st batch).2 =
      (pcalls st.2 ++ [kvs (watchPrefix_body wk fn st batch).2])%list.
Proof.
  destruct (range_update_entry (kvs st.2) batch) as [Hkvs Hflag].
  unfold watchPrefix_body.
  destruct (range update_entry (kvs st.2, false) batch).2 eqn:Hchanged; [by right|].
  left. split; [done|]. simpl. apply map_eq. intros k. rewrite Hkvs.
  unfold entry_after. destruct (batch !! k) as [[v|]|] eqn:Hk; [| |done].
  - destruct (decide (kvs st.2 !! k = Some (Value (Kv v)))) as [|Hne]; [done|].
    assert (batch_changes (kvs st.2) batch) as Hch by by exists k, (Some v).
    apply Hflag in Hch. congruence.
  - assert (batch_changes (kvs st.2) batch) as Hch by by exists k, None.
    apply Hflag in Hch. congruence.
Qed.

Lemma watchPrefix_body_informer (wk : string) fn
    (st : @meshInformer CB * prefixLocals) batch :
  (watchPrefix_body wk fn st batch).1 = st.1
  ∨ (watchPrefix_body wk fn st batch).1 = stopWatchOneKey wk st.1.
Proof.
  unfold watchPrefix_body. destruct (range _ _ _).2; [|by left].
  unfold deliverPrefix. simpl. destruct (fn _ _).2; auto.
Qed.

(** The closure of the callback is in the state the calls of the log leave
    it in. *)
Lemma watchPrefix_body_closure (wk : string) fn (c0 : CB)
    (st : @meshInformer CB * prefixLocals) batch :
  pclosure st.2 = replayPrefix fn c0 (pcalls st.2) →
  pclosure (watchPrefix_body wk fn st batch).2 =
    replayPrefix fn c0 (pcalls (watchPrefix_body wk fn st batch).2).
Proof.
  intros Hst. unfold watchPrefix_body. destruct (range _ _ _).2; [|done].
  unfold deliverPrefix, replayPrefix. simpl. rewrite foldl_app. simpl.
  by rewrite Hst.
Qed.

Lemma watchPrefix_closure (ch : list (gmap string (option clientv3_Event)))
    (wk : string) fn (c : CB) inf :
  pclosure (watchPrefix ch wk fn c inf).2 =
    replayPrefix fn c (pcalls (watchPrefix ch wk fn c inf).2).
Proof.
  unfold watchPrefix.
  set (st0 := deliverPrefix _ _ _ _).
  assert (pclosure st0.2 = replayPrefix fn c (pcalls st0.2)) as Hst0 by done.
  clearbody st0. revert st0 Hst0.
  induction (tail ch) as [|batch batches IH]; intros st0 Hst0; simpl; [done|].
  by apply IH, watchPrefix_body_closure.
Qed.

(** The calls made so far stay in the log. *)
Lemma watchPrefix_loop_calls (wk : string) fn
    (batches : list (gmap string (option clientv3_Event)))
    (st : @meshInformer CB * prefixLocals) :
  pcalls st.2 `prefix_of` pcalls (foldl (watchPrefix_body wk fn) st batches).2.
Proof.
  revert st. induction batches as [|batch batches IH]; intros st; simpl; [done|].
  etrans; [|apply IH].
  destruct (watchPrefix_body_locals wk fn st batch) as [[-> _] | ->]; [done|].
  by apply prefix_app_r.
Qed.

(** X7: the first call of the callback receives the values of the entries
    of the first batch that are not deletion markers, whatever was read
    from the store before; when the channel is closed before any batch, the
    runner does not fail: it calls the callback once, with the empty
    snapshot.  The callback is applied to exactly the snapshots of the log,
    in that order. *)
Theorem watchPrefix_priming (ch : list (gmap string (option clientv3_Event)))
    (wk : string) fn (c : CB) inf :
  head (pcalls (watchPrefix ch wk fn c inf).2) = Some (seed_of (default ∅ (head ch)))
  ∧ pcalls (watchPrefix [] wk fn c inf).2 = [∅]
  ∧ pclosure (watchPrefix ch wk fn c inf).2 =
      replayPrefix fn c (pcalls (watchPrefix ch wk fn c inf).2).
Proof.
  split_and!; [|done|apply watchPrefix_closure].
  unfold watchPrefix.
  set (first := match ch with [] => ∅ | m :: _ => m end).
  assert (first = default ∅ (head ch)) as Hfirst by by destruct ch.
  rewrite range_seed_entry, Hfirst.
  set (st0 := deliverPrefix _ _ _ _).
  destruct (watchPrefix_loop_calls wk fn (tail ch) st0) as [more ->].
  done.
Qed.

(** X8: at any time the last snapshot the callback received is the
    snapshot of the runner: no change of the snapshot goes undelivered.
    The callback is applied to exactly the snapshots of the log, in that
    order. *)
Theorem watchPrefix_last_call (ch : list (gmap string (option clientv3_Event)))
    (wk : string) fn (c : CB) inf :
  last (pcalls (watchPrefix ch wk fn c inf).2) = Some (kvs (watchPrefix ch wk fn c inf).2)
  ∧ pclosure (watchPrefix ch wk fn c inf).2 =
      replayPrefix fn c (pcalls (watchPrefix ch wk fn c inf).2).
Proof.
  split; [|apply watchPrefix_closure].
  unfold watchPrefix.
  set (st0 := deliverPrefix _ _ _ _).
  assert (last (pcalls st0.2) = Some (kvs st0.2)) as Hst0 by done.
  clearbody st0. revert st0 Hst0.
  induction (tail ch) as [|batch batches IH]; intros st0 Hst0; simpl; [done|].
  apply IH.
  destruct (watchPrefix_body_locals wk fn st0 batch) as [[-> ->] | ->]; [done|].
  by rewrite last_snoc.
Qed.

(** X9: a batch of deletion markers for keys the snapshot does not hold
    leaves the snapshot as it was and still applies the callback to it. *)
Theorem watchPrefix_delete_unknown (wk : string) fn
    (st : @meshInformer CB * prefixLocals) batch :
  batch ≠ ∅ →
  (∀ k v, batch !! k = Some v → v = None ∧ kvs st.2 !! k = None) →
  kvs (watchPrefix_body wk fn st batch).2 = kvs st.2
  ∧ pcalls (watchPrefix_body wk fn st batch).2 = (pcalls st.2 ++ [kvs st.2])%list
  ∧ pclosure (watchPrefix_body wk fn st batch).2 = (fn (pclosure st.2) (kvs st.2)).1.
Proof.
  intros Hne Hdel.
  destruct (range_update_entry (kvs st.2) batch) as [Hkvs Hflag].
  assert ((range update_entry (kvs st.2, false) batch).2 = true) as Hchanged.
  { apply Hflag. apply map_choose in Hne as (k & v & Hk).
    exists k, v. split; [done|]. by destruct (Hdel k v Hk) as [-> _]. }
  assert ((range update_entry (kvs st.2, false) batch).1 = kvs st.2) as Hsame.
  { apply map_eq. intros k. rewrite Hkvs. unfold entry_after.
    destruct (batch !! k) as [v|] eqn:Hk; [|done].
    by destruct (Hdel k v Hk) as [-> ->]. }
  unfold watchPrefix_body. rewrite Hchanged. unfold deliverPrefix. simpl.
  by rewrite Hsame.
Qed.

End WatchPrefixMore.

Lemma watchPrefix_delete_unknown_witness :
  let st : @meshInformer unit * prefixLocals :=
    (NewInformer Sample.store,
     {| kvs := {[ "a" := "3" ]}; pclosure := tt; pcalls := [ {[ "a" := "3" ]} ] |}) in
  pcalls (watchPrefix_body "w" (λ _ _, (tt, true)) st Sample.batch3).2 =
    [ {[ "a" := "3" ]}; {[ "a" := "3" ]} ].
Proof.
  intros st.
  destruct (@watchPrefix_delete_unknown unit "w" (λ _ _, (tt, true)) st Sample.batch3)
    as (_ & Hcalls & _).
  - intros Hempty. assert (Sample.batch3 !! "b" = None) as Hb by by rewrite Hempty.
    vm_compute in Hb. discriminate.
  - intros k v Hk. unfold Sample.batch3 in Hk.
    apply lookup_singleton_Some in Hk as [<- <-]. split; reflexivity.
  - exact Hcalls.
Defined.

(** * More on the registry *)

Section RegistryMore.
Context {CB : Type}.
Implicit Types (inf : @meshInformer CB) (fn : @specHandleFunc CB).
Implicit Types (fns : @specsHandleFunc CB).

(** X11: the revision a prefix watch starts from is the smallest
    [ModRevision] among the records read, and the largest 64-bit integer
    when no record was read. *)
Theorem minRevision_spec (kvs : gmap string KeyValue) :
  (∀ k v, kvs !! k = Some v → (ModRevision v ≤ maxInt64)%Z) →
  (kvs = ∅ ∧ minRevision kvs = maxInt64)
  ∨ (∃ k v, kvs !! k = Some v ∧ minRevision kvs = ModRevision v
            ∧ ∀ k' v', kvs !! k' = Some v' → (ModRevision v ≤ ModRevision v')%Z).
Proof.
  unfold minRevision.
  apply (map_fold_weak_ind (λ r (m : gmap string KeyValue),
    (∀ k v, m !! k = Some v → (ModRevision v ≤ maxInt64)%Z) →
    (m = ∅ ∧ r = maxInt64)
    ∨ (∃ k v, m !! k = Some v ∧ r = ModRevision v
              ∧ ∀ k' v', m !! k' = Some v' → (ModRevision v ≤ ModRevision v')%Z))).
  - intros _. by left.
  - intros k v m r Hk IH Hbound. right.
    assert (ModRevision v ≤ maxInt64)%Z as Hv
      by (apply (Hbound k); apply lookup_insert_eq).
    assert (∀ k' v', m !! k' = Some v' → (ModRevision v' ≤ maxInt64)%Z) as Hbound'.
    { intros k' v' Hk'. apply (Hbound k'). rewrite lookup_insert_ne; [done|].
      intros ->. congruence. }
    destruct (IH Hbound') as [[-> ->] | (k0 & v0 & Hk0 & -> & Hmin)].
    + exists k, v. split; [apply lookup_insert_eq|].
      split.
      * destruct (Z.ltb_spec (ModRevision v) maxInt64); [done|lia].
      * intros k' v' Hk'. apply lookup_insert_Some in Hk' as [[_ <-]|[_ Hk']]; [lia|].
        by rewrite lookup_empty in Hk'.
    + destruct (Z.ltb_spec (ModRevision v) (ModRevision v0)).
      * exists k, v. split; [apply lookup_insert_eq|]. split; [done|].
        intros k' v' Hk'. apply lookup_insert_Some in Hk' as [[_ <-]|[_ Hk']]; [lia|].
        specialize (Hmin k' v' Hk'). lia.
      * exists k0, v0. split.
        { rewrite lookup_insert_ne; [done|]. intros ->. congruence. }
        split; [done|].
        intros k' v' Hk'. apply lookup_insert_Some in Hk' as [[_ <-]|[_ Hk']]; [lia|].
        exact (Hmin k' v' Hk').
Qed.

(** X12: a single-key registration returns nil only if the informer is
    open, the watch key was free and the store holds a record for the key;
    it then has recorded a handle never issued before under the watch key
    and started one runner, on the channel that handle opened on the key from
    the [ModRevision] of the record read. *)
Theorem onSpecPart_success (storeKey wk : string) (path : GJSONPath) fn inf :
  (onSpecPart storeKey wk path fn inf).1 = None →
  closed inf = false
  ∧ watchers inf !! wk = None
  ∧ ∃ kv, GetRaw (store inf) storeKey = inr (Some kv)
      ∧ (onSpecPart storeKey wk path fn inf).2 =
          {| store := store inf;
             watchers := <[wk := issued inf]> (watchers inf);
             closed := false; issued := S (issued inf);
             closedWatchers := closedWatchers inf;
             spawned := (spawned inf ++
               [GoWatch (issued inf) storeKey (ModRevision kv) wk path fn])%list |}.
Proof.
  unfold onSpecPart.
  destruct (closed inf) eqn:Hclosed; [done|].
  destruct (decide _) as [|Hfree]; [done|].
  destruct (GetRaw _ _) as [|[kv|]]; [done| |done].
  destruct (NewWatcher _); [done|].
  destruct (WatchRawFromRev _ _ _); [done|]. simpl. intros _.
  split_and!; [done| |by exists kv].
  destruct (watchers inf !! wk) eqn:Hwk; [|done]. destruct Hfree. by eexists.
Qed.

(** X13: a prefix registration returns nil only if the informer is open and
    the watch key was free; no record needs to exist under the prefix.  It
    then has recorded a new handle under the watch key and started one
    runner, from the smallest revision of the records read. *)
Theorem onSpecs_success (storePrefix wk : string) fns inf :
  (onSpecs storePrefix wk fns inf).1 = None →
  closed inf = false
  ∧ watchers inf !! wk = None
  ∧ ∃ kvs, GetRawPrefix (store inf) storePrefix = inr kvs
      ∧ (onSpecs storePrefix wk fns inf).2 =
          {| store := store inf;
             watchers := <[wk := issued inf]> (watchers inf);
             closed := false; issued := S (issued inf);
             closedWatchers := closedWatchers inf;
             spawned := (spawned inf ++
               [GoWatchPrefix (issued inf) storePrefix (minRevision kvs) wk fns])%list |}.
Proof.
  unfold onSpecs.
  destruct (closed inf) eqn:Hclosed; [done|].
  destruct (decide _) as [|Hfree]; [done|].
  destruct (GetRawPrefix _ _) as [|kvs]; [done|].
  destruct (NewWatcher _); [done|].
  destruct (WatchRawPrefixFromRev _ _ _); [done|]. simpl. intros _.
  split_and!; [done| |by exists kvs].
  destruct (watchers inf !! wk) eqn:Hwk; [|done]. destruct Hfree. by eexists.
Qed.

(** X14: a single-key registration that returns an error registers
    nothing, closes nothing and starts no runner; at most it has asked the
    store for one handle. *)
Theorem onSpecPart_error (storeKey wk : string) (path : GJSONPath) fn inf (err : error) :
  (onSpecPart storeKey wk path fn inf).1 = Some err →
  let inf' := (onSpecPart storeKey wk path fn inf).2 in
  store inf' = store inf ∧ watchers inf' = watchers inf ∧ closed inf' = closed inf
  ∧ closedWatchers inf' = closedWatchers inf ∧ spawned inf' = spawned inf
  ∧ (issued inf' = issued inf ∨ issued inf' = S (issued inf)).
Proof.
  unfold onSpecPart.
  destruct (closed inf) eqn:Hclosed; [by auto 10|].
  destruct (decide _); [by auto 10|].
  destruct (GetRaw _ _) as [|[kv|]]; [by auto 10| |by auto 10].
  destruct (NewWatcher _); [by auto 10|].
  destruct (WatchRawFromRev _ _ _); [|done]. simpl. auto 10.
Qed.

(** X15: a prefix registration that returns an error registers nothing,
    closes nothing and starts no runner; at most it has asked the store for
    one handle. *)
Theorem onSpecs_error (storePrefix wk : string) fns inf (err : error) :
  (onSpecs storePrefix wk fns inf).1 = Some err →
  let inf' := (onSpecs storePrefix wk fns inf).2 in
  store inf' = store inf ∧ watchers inf' = watchers inf ∧ closed inf' = closed inf
  ∧ closedWatchers inf' = closedWatchers inf ∧ spawned inf' = spawned inf
  ∧ (issued inf' = issued inf ∨ issued inf' = S (issued inf)).
Proof.
  unfold onSpecs.
  destruct (closed inf) eqn:Hclosed; [by auto 10|].
  destruct (decide _); [by auto 10|].
  destruct (GetRawPrefix _ _) as [|kvs]; [by auto 10|].
  destruct (NewWatcher _); [by auto 10|].
  destruct (WatchRawPrefixFromRev _ _ _); [|done]. simpl. auto 10.
Qed.

End RegistryMore.

(** * The handles of an informer *)

Section Handles.
Context {CB : Type}.
Implicit Types (inf : @meshInformer CB) (fn : @specHandleFunc CB).
Implicit Types (fns : @specsHandleFunc CB).

Local Ltac registration_failed :=
  left; simpl; split;
  [done | first [by left | right; unfold issue; simpl; congruence]].

(** The three ways a registration can leave the informer. *)
Lemma onSpecPart_cases (storeKey wk : string) (path : GJSONPath) fn inf :
  ((onSpecPart storeKey wk path fn inf).1 ≠ None
   ∧ ((onSpecPart storeKey wk path fn inf).2 = inf
      ∨ (onSpecPart storeKey wk path fn inf).2 = issue inf))
  ∨ ((onSpecPart storeKey wk path fn inf).1 = None
     ∧ watchers inf !! wk = None
     ∧ ∃ g, (onSpecPart storeKey wk path fn inf).2 = register wk g inf).
Proof.
  unfold onSpecPart.
  destruct (closed inf) eqn:Hclosed; [registration_failed|].
  destruct (decide _) as [|Hfree]; [registration_failed|].
  destruct (GetRaw _ _) as [|[kv|]]; [registration_failed| |registration_failed].
  destruct (NewWatcher _); [registration_failed|].
  destruct (WatchRawFromRev _ _ _); [registration_failed|].
  right. split_and!; [done| |eexists; unfold register; simpl; by rewrite Hclosed].
  destruct (watchers inf !! wk) eqn:Hwk; [|done]. destruct Hfree. by eexists.
Qed.

Lemma onSpecs_cases (storePrefix wk : string) fns inf :
  ((onSpecs storePrefix wk fns inf).1 ≠ None
   ∧ ((onSpecs storePrefix wk fns inf).2 = inf
      ∨ (onSpecs storePrefix wk fns inf).2 = issue inf))
  ∨ ((onSpecs storePrefix wk fns inf).1 = None
     ∧ watchers inf !! wk = None
     ∧ ∃ g, (onSpecs storePrefix wk fns inf).2 = register wk g inf).
Proof.
  unfold onSpecs.
  destruct (closed inf) eqn:Hclosed; [registration_failed|].
  destruct (decide _) as [|Hfree]; [registration_failed|].
  destruct (GetRawPrefix _ _) as [|kvs]; [registration_failed|].
  destruct (NewWatcher _); [registration_failed|].
  destruct (WatchRawPrefixFromRev _ _ _); [registration_failed|].
  right. split_and!; [done| |eexists; unfold register; simpl; by rewrite Hclosed].
  destruct (watchers inf !! wk) eqn:Hwk; [|done]. destruct Hfree. by eexists.
Qed.

(** Every call leaves the informer in one of five ways. *)
Lemma step_cases inf (c : call) :
  step inf c = inf
  ∨ step inf c = issue inf
  ∨ (∃ wk g, watchers inf !! wk = None ∧ step inf c = register wk g inf)
  ∨ (∃ key, step inf c = stopWatchOneKey key inf)
  ∨ step inf c = Close inf
  ∨ (∃ st, step inf c = withStore st inf).
Proof.
  destruct c; simpl.
  - destruct (onSpecPart_cases storeKey watcherKey gjsonPath fn inf)
      as [[_ [->| ->]] | (_ & Hfree & g & ->)]; eauto 10.
  - destruct (onSpecs_cases storePrefix watcherKey fn inf)
      as [[_ [->| ->]] | (_ & Hfree & g & ->)]; eauto 10.
  - eauto 10.
  - eauto 10.
  - eauto 10.
Qed.

Lemma consistent_NewInformer (st : Storage) : consistent (@NewInformer CB st).
Proof.
  unfold consistent. simpl. split_and!.
  - intros k w Hk. by rewrite lookup_empty in Hk.
  - intros w Hw. by apply not_elem_of_empty in Hw.
  - intros k1 k2 w Hk. by rewrite lookup_empty in Hk.
  - intros _ k w Hk. by rewrite lookup_empty in Hk.
Qed.

Lemma consistent_issue inf : consistent inf → consistent (issue inf).
Proof.
  intros (Htable & Hclosed & Hinj & Hopen). unfold consistent. simpl. split_and!.
  - intros k w Hk. specialize (Htable k w Hk). lia.
  - intros w Hw. specialize (Hclosed w Hw). lia.
  - done.
  - done.
Qed.

Lemma consistent_register (wk : string) (g : @goroutine CB) inf :
  watchers inf !! wk = None → consistent inf → consistent (register wk g inf).
Proof.
  intros Hfree (Htable & Hclosed & Hinj & Hopen). unfold consistent. simpl.
  assert (∀ k, watchers inf !! k ≠ Some (issued inf)) as Hfresh.
  { intros k Hk. specialize (Htable k _ Hk). lia. }
  split_and!.
  - intros k w Hk. apply lookup_insert_Some in Hk as [[_ <-]|[_ Hk]]; [lia|].
    specialize (Htable k w Hk). lia.
  - intros w Hw. specialize (Hclosed w Hw). lia.
  - intros k1 k2 w Hk1 Hk2.
    apply lookup_insert_Some in Hk1 as [[<- <-]|[Hne1 Hk1]];
      apply lookup_insert_Some in Hk2 as [[<- Heq]|[Hne2 Hk2]]; try done.
    + by destruct (Hfresh k2).
    + subst w. by destruct (Hfresh k1).
    + by apply (Hinj k1 k2 w).
  - intros Hop k w Hk. apply lookup_insert_Some in Hk as [[_ <-]|[_ Hk]].
    + intros Hin. specialize (Hclosed _ Hin). lia.
    + by apply (Hopen Hop k).
Qed.

Lemma consistent_stopWatchOneKey (key : string) inf :
  consistent inf → consistent (stopWatchOneKey key inf).
Proof.
  intros (Htable & Hclosed & Hinj & Hopen). unfold stopWatchOneKey.
  destruct (watchers inf !! key) as [w0|] eqn:Hkey; [|done].
  unfold consistent. simpl. split_and!.
  - intros k w Hk. apply lookup_delete_Some in Hk as [_ Hk]. by apply (Htable k).
  - intros w Hw. apply elem_of_union in Hw as [Hw|Hw]; [|by apply Hclosed].
    apply elem_of_singleton in Hw as ->. by apply (Htable key).
  - intros k1 k2 w Hk1 Hk2. apply lookup_delete_Some in Hk1 as [_ Hk1].
    apply lookup_delete_Some in Hk2 as [_ Hk2]. by apply (Hinj k1 k2 w).
  - intros Hop k w Hk. apply lookup_delete_Some in Hk as [Hne Hk].
    intros Hw. apply elem_of_union in Hw as [Hw|Hw]; [|by apply (Hopen Hop k w)].
    apply elem_of_singleton in Hw as ->. by destruct Hne; apply (Hinj key k w0).
Qed.

Lemma consistent_Close inf : consistent inf → consistent (Close inf).
Proof.
  intros (Htable & Hclosed & Hinj & Hopen).
  unfold consistent. rewrite Close_closedWatchers. simpl. split_and!.
  - done.
  - intros w Hw. apply elem_of_union in Hw as [Hw|Hw]; [|by apply Hclosed].
    apply elem_of_map_img in Hw as [k Hk]. by apply (Htable k).
  - done.
  - done.
Qed.

Lemma consistent_step inf (c : call) : consistent inf → consistent (step inf c).
Proof.
  intros Hinf.
  destruct (step_cases inf c)
    as [-> | [-> | [(wk & g & Hfree & ->) | [[key ->] | [-> | [st ->]]]]]].
  - done.
  - by apply consistent_issue.
  - by apply consistent_register.
  - by apply consistent_stopWatchOneKey.
  - by apply consistent_Close.
  - done.
Qed.

(** X16: whatever is called on an informer made by [NewInformer], and
    whatever the store answers, every handle in the table was issued by the
    store, no two watch keys share a handle, only issued handles were ever
    closed, and as long as the informer is open no handle in the table is
    closed. *)
Theorem run_consistent (st : Storage) (history : list (@call CB)) :
  consistent (run (NewInformer st) history).
Proof.
  assert (∀ inf, consistent inf → consistent (run inf history)) as Hrun.
  { induction history as [|c history IH]; intros inf Hinf; [done|].
    simpl. by apply IH, consistent_step. }
  apply Hrun, consistent_NewInformer.
Qed.

Lemma forgotten_step (h : Watcher) inf (c : call) :
  forgotten h inf → forgotten h (step inf c).
Proof.
  intros (Hissued & Htable & Hclosed).
  destruct (step_cases inf c)
    as [-> | [-> | [(wk & g & Hfree & ->) | [[key ->] | [-> | [st ->]]]]]].
  - done.
  - unfold forgotten. simpl. split_and!; [lia|done|done].
  - unfold forgotten. simpl. split_and!; [lia| |done].
    intros k Hk. apply lookup_insert_Some in Hk as [[_ Heq]|[_ Hk]]; [lia|].
    by destruct (Htable k).
  - unfold stopWatchOneKey. destruct (watchers inf !! key) as [w|] eqn:Hkey; [|done].
    unfold forgotten. simpl. split_and!; [done| |].
    + intros k Hk. apply lookup_delete_Some in Hk as [_ Hk]. by destruct (Htable k).
    + intros Hin. apply elem_of_union in Hin as [Hin|Hin]; [|done].
      apply elem_of_singleton in Hin as ->. by destruct (Htable key).
  - unfold forgotten. rewrite Close_closedWatchers. simpl. split_and!; [done|done|].
    intros Hin. apply elem_of_union in Hin as [Hin|Hin]; [|done].
    apply elem_of_map_img in Hin as [k Hk]. by destruct (Htable k).
  - done.
Qed.

Lemma forgotten_run (h : Watcher) inf (history : list (@call CB)) :
  forgotten h inf → forgotten h (run inf history).
Proof.
  revert inf. induction history as [|c history IH]; intros inf Hinf; [done|].
  simpl. by apply IH, forgotten_step.
Qed.

(** X17: when the store gives a handle but the raw watch cannot be started,
    the registration returns the error of the store and the handle is
    forgotten: it is not in the table, it is not closed, and no later call,
    [Close] included, ever closes it. *)
Theorem onSpecPart_forgets (storeKey wk : string) (path : GJSONPath) fn inf
    (kv : KeyValue) (err : error) (history : list (@call CB)) :
  consistent inf →
  closed inf = false →
  watchers inf !! wk = None →
  GetRaw (store inf) storeKey = inr (Some kv) →
  NewWatcher (store inf) = None →
  WatchRawFromRev (store inf) storeKey (ModRevision kv) = Some err →
  (onSpecPart storeKey wk path fn inf).1 = Some err
  ∧ issued (onSpecPart storeKey wk path fn inf).2 = S (issued inf)
  ∧ forgotten (issued inf) (run (onSpecPart storeKey wk path fn inf).2 history).
Proof.
  intros (Htable & Hclosed & _ & _) Hopen Hfree Hget Hnew Hwatch.
  assert (onSpecPart storeKey wk path fn inf = (Some err, issue inf)) as ->.
  { unfold onSpecPart. rewrite Hopen, Hfree, Hget, Hnew, Hwatch.
    rewrite decide_False; [|by intros [? ?]].
    unfold issue. by rewrite Hopen. }
  split_and!; [done|done|].
  apply forgotten_run. unfold forgotten. simpl. split_and!.
  - lia.
  - intros k Hk. specialize (Htable k _ Hk). lia.
  - intros Hin. specialize (Hclosed _ Hin). lia.
Qed.

End Handles.

Lemma minRevision_spec_witness :
  minRevision
    {[ "a" := Sample.record "a" "1" 9; "b" := Sample.record "b" "2" 4;
       "c" := Sample.record "c" "3" 6 ]} = 4%Z.
Proof.
  destruct (minRevision_spec
              {[ "a" := Sample.record "a" "1" 9; "b" := Sample.record "b" "2" 4;
                 "c" := Sample.record "c" "3" 6 ]})
    as [[Hempty _] | (k & v & Hk & Hmin & Hleast)].
  - intros k v Hk.
    apply lookup_insert_Some in Hk as [[_ <-]|[_ Hk]]; [done|].
    apply lookup_insert_Some in Hk as [[_ <-]|[_ Hk]]; [done|].
    apply lookup_singleton_Some in Hk as [_ <-]. done.
  - exfalso. apply (f_equal (λ m : gmap string KeyValue, m !! "b")) in Hempty.
    vm_compute in Hempty. discriminate.
  - reflexivity.
Defined.

Lemma onSpecPart_success_witness :
  let r := @onSpecPart unit "/mesh/tenants/spec/t" "tenant-t" "b"
             (@specFunc unit (@Tenant Sample.specs) Sample.keep)
             (NewInformer Sample.store) in
  watchers r.2 = {[ "tenant-t" := 0 ]}.
Proof.
  intros r.
  destruct (@onSpecPart_success unit "/mesh/tenants/spec/t" "tenant-t" "b"
              (@specFunc unit (@Tenant Sample.specs) Sample.keep)
              (NewInformer Sample.store) eq_refl)
    as (_ & _ & kv & _ & Hr).
  subst r. rewrite Hr. reflexivity.
Defined.

Lemma onSpecs_success_witness :
  let r := @onSpecs unit "/mesh/ingress/" "prefix-ingress"
             (@specsFunc unit (@Ingress Sample.specs) (λ _ _, (tt, true)))
             (NewInformer Sample.store) in
  watchers r.2 = {[ "prefix-ingress" := 0 ]}.
Proof.
  intros r.
  destruct (@onSpecs_success unit "/mesh/ingress/" "prefix-ingress"
              (@specsFunc unit (@Ingress Sample.specs) (λ _ _, (tt, true)))
              (NewInformer Sample.store) eq_refl)
    as (_ & _ & kvs & _ & Hr).
  subst r. rewrite Hr. reflexivity.
Defined.

Lemma onSpecPart_error_witness :
  let inf : @meshInformer unit := NewInformer Sample.store in
  watchers (onSpecPart "/mesh/tenants/spec/none" "tenant-none" "b"
              (@specFunc unit (@Tenant Sample.specs) Sample.keep) inf).2 = watchers inf.
Proof.
  intros inf.
  destruct (@onSpecPart_error unit "/mesh/tenants/spec/none" "tenant-none" "b"
              (@specFunc unit (@Tenant Sample.specs) Sample.keep) inf ErrNotFound eq_refl)
    as (_ & Hw & _).
  exact Hw.
Defined.

Lemma onSpecs_error_witness :
  let inf : @meshInformer unit := Close (NewInformer Sample.store) in
  watchers (onSpecs "/mesh/ingress/" "prefix-ingress"
              (@specsFunc unit (@Ingress Sample.specs) (λ _ _, (tt, true))) inf).2 = watchers inf.
Proof.
  intros inf.
  destruct (@onSpecs_error unit "/mesh/ingress/" "prefix-ingress"
              (@specsFunc unit (@Ingress Sample.specs) (λ _ _, (tt, true))) inf ErrClosed eq_refl)
    as (_ & Hw & _).
  exact Hw.
Defined.

Lemma onSpecPart_forgets_witness :
  let st :=
    {| GetRaw := λ key, inr (Some (Sample.record key Sample.doc1 3));
       GetRawPrefix := λ _, inr ∅;
       NewWatcher := None;
       WatchRawFromRev := λ _ _, Some (ErrStorage "watch failed");
       WatchRawPrefixFromRev := λ _ _, None |} in
  let r := @onSpecPart unit "k" "w" "" (λ _ _ _, (tt, true)) (NewInformer st) in
  r.1 = Some (ErrStorage "watch failed")
  ∧ 0 ∉ closedWatchers (Close r.2).
Proof.
  intros st r.
  destruct (@onSpecPart_forgets unit "k" "w" "" (λ _ _ _, (tt, true)) (NewInformer st)
              (Sample.record "k" Sample.doc1 3) (ErrStorage "watch failed") [CallClose]
              (consistent_NewInformer st) eq_refl eq_refl eq_refl eq_refl eq_refl)
    as (Herr & _ & _ & _ & Hopen).
  split; [exact Herr|exact Hopen].
Defined.

(** * More on the watch keys *)

Lemma String_app_nil (s : string) : "" +:+ s = s.
Proof. reflexivity. Qed.

Lemma String_app_cons (a : Ascii.ascii) (s t : string) :
  String a s +:+ t = String a (s +:+ t).
Proof. reflexivity. Qed.

Lemma String_app_assoc (a b c : string) : (a +:+ b) +:+ c = a +:+ b +:+ c.
Proof.
  induction a as [|x a IH]; [done|].
  rewrite !String_app_cons. by f_equal.
Qed.

(** Names without [-] are recovered from what follows a common prefix. *)
Lemma dashless_split (s1 s2 p1 p2 : string) :
  dashless s1 = true → dashless s2 = true →
  s1 +:+ "-" +:+ p1 = s2 +:+ "-" +:+ p2 → s1 = s2 ∧ p1 = p2.
Proof.
  revert s2. induction s1 as [|a1 s1 IH]; intros [|a2 s2] Hd1 Hd2 Heq;
    rewrite ?String_app_nil, ?String_app_cons, ?String_app_nil in Heq.
  - by simplify_eq.
  - simplify_eq; simpl in *; done.
  - simplify_eq; simpl in *; done.
  - simpl in Hd1, Hd2.
    apply andb_true_iff in Hd1 as [_ Hd1]. apply andb_true_iff in Hd2 as [_ Hd2].
    simplify_eq. by destruct (IH s2 Hd1 Hd2 ltac:(done)) as [-> ->].
Qed.

Section WatchKeysMore.
Context `{Layout} `{Specs}.
Context {CB : Type}.
Implicit Types (inf : @meshInformer CB).

(** X19: the watch key of a service part joins the name and the path with
    [-], so a name and a path that contain [-] can be cut in two ways: once
    the part [p-q] of the service [s] is watched, watching the part [q] of
    the service [s-p] fails with [ErrAlreadyWatched], without a look at the
    store. *)
Theorem OnPartOfServiceSpec_dash (s p q : string)
    (fn1 fn2 : CB → Event → Service → CB * bool) inf :
  (OnPartOfServiceSpec s (p ++ "-" ++ q) fn1 inf).1 = None →
  OnPartOfServiceSpec (s ++ "-" ++ p) q fn2 (OnPartOfServiceSpec s (p ++ "-" ++ q) fn1 inf).2
    = (Some ErrAlreadyWatched, (OnPartOfServiceSpec s (p ++ "-" ++ q) fn1 inf).2).
Proof.
  unfold OnPartOfServiceSpec. intros Hnil.
  apply onSpecPart_nil in Hnil as [Hclosed Hwatched].
  apply onSpecPart_watched; [done|].
  replace (serviceSpecWatcherKey (s ++ "-" ++ p) q)
    with (serviceSpecWatcherKey s (p ++ "-" ++ q)); [done|].
  unfold serviceSpecWatcherKey. by rewrite !String_app_assoc.
Qed.

(** X20: for service names without [-], the watch key of a service part
    determines the service and the path. *)
Theorem serviceSpecWatcherKey_inj (s1 s2 : string) (p1 p2 : GJSONPath) :
  dashless s1 = true → dashless s2 = true →
  serviceSpecWatcherKey s1 p1 = serviceSpecWatcherKey s2 p2 →
  s1 = s2 ∧ p1 = p2.
Proof.
  unfold serviceSpecWatcherKey. intros Hd1 Hd2 Heq.
  apply (inj (String.app _)) in Heq. by apply dashless_split.
Qed.

(** X21: stopping the watch of one part of a service leaves the watches of
    its other parts registered. *)
Theorem StopWatchServiceSpec_other_path (s : string) (p1 p2 : GJSONPath) inf :
  p1 ≠ p2 →
  watchers (StopWatchServiceSpec s p1 inf) !! serviceSpecWatcherKey s p2 =
    watchers inf !! serviceSpecWatcherKey s p2.
Proof.
  intros Hne. unfold StopWatchServiceSpec.
  destruct (stopWatchOneKey_frame (serviceSpecWatcherKey s p1) inf)
    as (_ & _ & _ & _ & -> & _).
  rewrite lookup_delete_ne; [done|].
  intros Heq. by apply serviceSpecWatcherKey_path in Heq.
Qed.

Lemma stopWatchOneKey_register (wk : string) (g : @goroutine CB) inf :
  watchers inf !! wk = None →
  watchers (stopWatchOneKey wk (register wk g inf)) = watchers inf
  ∧ closedWatchers (stopWatchOneKey wk (register wk g inf)) =
      {[issued inf]} ∪ closedWatchers inf
  ∧ closed (stopWatchOneKey wk (register wk g inf)) = closed inf.
Proof.
  intros Hfree. unfold stopWatchOneKey, register. simpl.
  rewrite lookup_insert_eq. simpl.
  by rewrite delete_insert_eq, delete_id.
Qed.

(** X22: [StopWatchServiceSpec] undoes a successful [OnPartOfServiceSpec]
    with the same name and path: the table is as it was before the
    registration and the handle the registration recorded is closed. *)
Theorem StopWatchServiceSpec_undoes (s : string) (p : GJSONPath)
    (fn : CB → Event → Service → CB * bool) inf :
  (OnPartOfServiceSpec s p fn inf).1 = None →
  let inf' := StopWatchServiceSpec s p (OnPartOfServiceSpec s p fn inf).2 in
  watchers inf' = watchers inf
  ∧ closedWatchers inf' = {[issued inf]} ∪ closedWatchers inf
  ∧ closed inf' = closed inf.
Proof.
  unfold OnPartOfServiceSpec, StopWatchServiceSpec. intros Hnil.
  destruct (onSpecPart_cases (ServiceSpecKey s) (serviceSpecWatcherKey s p) p
              (specFunc Service fn) inf) as [[Herr _] | (_ & Hfree & g & Hr)]; [done|].
  rewrite Hr. by apply stopWatchOneKey_register.
Qed.

(** X23: [StopWatchServiceInstanceSpec] undoes a successful
    [OnServiceInstanceSpecs] for the same service. *)
Theorem StopWatchServiceInstanceSpec_undoes (s : string)
    (fn : CB → gmap string ServiceInstanceSpec → CB * bool) inf :
  (OnServiceInstanceSpecs s fn inf).1 = None →
  let inf' := StopWatchServiceInstanceSpec s (OnServiceInstanceSpecs s fn inf).2 in
  watchers inf' = watchers inf
  ∧ closedWatchers inf' = {[issued inf]} ∪ closedWatchers inf
  ∧ closed inf' = closed inf.
Proof.
  unfold OnServiceInstanceSpecs, StopWatchServiceInstanceSpec. intros Hnil.
  destruct (onSpecs_cases (ServiceInstanceSpecPrefix s) (serviceInstanceSpecWatcherKey s)
              (specsFunc ServiceInstanceSpec fn) inf)
    as [[Herr _] | (_ & Hfree & g & Hr)]; [done|].
  rewrite Hr. by apply stopWatchOneKey_register.
Qed.

End WatchKeysMore.

Lemma OnPartOfServiceSpec_dash_witness :
  let inf : @meshInformer unit := NewInformer Sample.store in
  let first := @OnPartOfServiceSpec Sample.layout Sample.specs unit
                 "s" "a-b" Sample.keep inf in
  first.1 = None
  ∧ (@OnPartOfServiceSpec Sample.layout Sample.specs unit
       "s-a" "b" Sample.keep first.2).1 = Some ErrAlreadyWatched.
Proof.
  intros inf first. split; [reflexivity|].
  exact (f_equal fst
    (@OnPartOfServiceSpec_dash Sample.layout Sample.specs unit "s" "a" "b"
       Sample.keep Sample.keep inf eq_refl)).
Defined.

Lemma serviceSpecWatcherKey_inj_witness :
  "shop" = "shop" ∧ ServiceLoadBalance = "loadBalance".
Proof.
  apply (serviceSpecWatcherKey_inj "shop" "shop" ServiceLoadBalance "loadBalance");
    reflexivity.
Defined.

Lemma StopWatchServiceSpec_other_path_witness :
  let inf : @meshInformer unit :=
    (@OnPartOfServiceSpec Sample.layout Sample.specs unit "s" ServiceCanary Sample.keep
       (NewInformer Sample.store)).2 in
  watchers (StopWatchServiceSpec "s" ServiceResilience inf)
    !! serviceSpecWatcherKey "s" ServiceCanary = Some 0.
Proof.
  intros inf.
  etrans.
  - apply (@StopWatchServiceSpec_other_path unit "s" ServiceResilience ServiceCanary inf).
    done.
  - reflexivity.
Defined.

Lemma StopWatchServiceSpec_undoes_witness :
  let inf : @meshInformer unit := NewInformer Sample.store in
  watchers (StopWatchServiceSpec "s" ServiceCanary
              (@OnPartOfServiceSpec Sample.layout Sample.specs unit
                 "s" ServiceCanary Sample.keep inf).2) = ∅.
Proof.
  intros inf.
  destruct (@StopWatchServiceSpec_undoes Sample.layout Sample.specs unit
              "s" ServiceCanary Sample.keep inf eq_refl) as (Hw & _).
  exact Hw.
Defined.

Lemma StopWatchServiceInstanceSpec_undoes_witness :
  let inf : @meshInformer unit := NewInformer Sample.store in
  watchers (StopWatchServiceInstanceSpec "s"
              (@OnServiceInstanceSpecs Sample.layout Sample.specs unit
                 "s" (λ _ _, (tt, true)) inf).2) = ∅.
Proof.
  intros inf.
  destruct (@StopWatchServiceInstanceSpec_undoes Sample.layout Sample.specs unit
              "s" (λ _ _, (tt, true)) inf eq_refl) as (Hw & _).
  exact Hw.
Defined.
